(** * SudokuSolver: a shallow embedding of [SudokuSolver.py] and its properties

    The solver keeps a grid as a Python list of 81 squares [[value, set]],
    mutates it in place, and searches by recursion on a list of 81 integers.
    Here the grid is a [list square] passed explicitly from statement to
    statement, Python exceptions are a constructor of [result], and the two
    unbounded constructs (the [while changed] loop and the recursion of
    [solve]) take a fuel argument whose exhaustion is a third constructor, so
    that "returns" is always a statement about [Ok].

    Conventions of the model:
    - cell values and candidates are Python ints, here [Z]; indices, group
      numbers, lengths and counters are non-negative Python ints, here [nat],
      on which Python 2's [/] is floor division and [%] the remainder;
    - a Python [set] of ints is a [gset Z], a [dict] keyed by ints a
      [gmap Z _];
    - every read [l[i]] of a list is [getitem], which raises [IndexError]
      out of range, and every write [l[i] = x] follows a read of [l[i]];
    - iterating a set or the keys of a dict visits the elements in ascending
      order ([set_iter], [dict_keys]).  Python leaves that order open; it
      decides which of two values wins when the second half of [propagate]
      writes one square twice, and the order of values of equal frequency
      in [solve];
    - the optional output file of [solve] is left out ([sOutFile = None]). *)

From stdpp Require Import gmap list sorting.
From Stdlib Require Import ZArith Lia.

#[local] Set Warnings "-clear-no-such-hyp".

Local Open Scope Z_scope.
Local Open Scope nat_scope.

(** ** Exceptions and fuel *)

Inductive exn := IndexError | KeyError.

Inductive result (A : Type) :=
  | Ok (a : A)
  | Raise (e : exn)
  | OutOfFuel.
Arguments Ok {A} a.
Arguments Raise {A} e.
Arguments OutOfFuel {A}.

#[global] Instance result_ret : MRet result := @Ok.
#[global] Instance result_bind : MBind result := λ A B f m,
  match m with
  | Ok a => f a
  | Raise e => Raise e
  | OutOfFuel => OutOfFuel
  end.

(** [for x in l: s = body(s, x)] with the loop-carried variables in [s]. *)
Fixpoint for_ {A S : Type} (l : list A) (body : S → A → result S) (s : S)
    : result S :=
  match l with
  | [] => Ok s
  | x :: l' => s' ← body s x; for_ l' body s'
  end.

(** [l[i]] *)
Definition getitem {A : Type} (l : list A) (i : nat) : result A :=
  match l !! i with
  | Some x => Ok x
  | None => Raise IndexError
  end.

(** [range(a, b)] and [range(a, b, step)] *)
Definition range (a b : nat) : list nat := seq a (b - a).
Definition range_step (a b step : nat) : list nat :=
  (λ k, a + k * step) <$> seq 0 ((b - a + (step - 1)) / step).

(** Iteration order of a set of ints and of the keys of a dict. *)
Definition set_iter (s : gset Z) : list Z := merge_sort Z.le (elements s).
Definition dict_keys {V : Type} (d : gmap Z V) : list Z :=
  merge_sort Z.le (elements (dom d)).

(** [s.pop()] *)
Definition set_pop (s : gset Z) : result (Z * gset Z) :=
  match set_iter s with
  | [] => Raise KeyError
  | v :: _ => Ok (v, s ∖ {[v]})
  end.

(** [if v in s: s.remove(v)] *)
Definition discard (v : Z) (s : gset Z) : gset Z :=
  if decide (v ∈ s) then s ∖ {[v]} else s.

(** [sorted(l, key = key)]: Python's sort is stable. *)
Fixpoint insert_by {A : Type} (key : A → nat) (x : A) (l : list A) : list A :=
  match l with
  | [] => [x]
  | y :: l' => if decide (key x ≤ key y) then x :: l else y :: insert_by key x l'
  end.
Definition sorted_by {A : Type} (key : A → nat) (l : list A) : list A :=
  foldr (insert_by key) [] l.

(** ** Geometry *)

Definition getRow (i : nat) : list nat := range (i * 9) ((i + 1) * 9).

Definition getCol (i : nat) : list nat := range_step i (73 + i) 9.

Definition getBox (k : nat) : list nat :=
  let start := k / 3 * 27 + k mod 3 * 3 in
  range start (start + 3) ++ range (start + 9) (start + 12)
    ++ range (start + 18) (start + 21).

Definition toRow (idx : nat) : nat := idx / 9.

Definition toCol (idx : nat) : nat := idx mod 9.

Definition toBox (idx : nat) : nat := toRow idx / 3 * 3 + toCol idx / 3.

(** ** Squares and grids *)

(** A square [[int_value, set]]. *)
Record square := Square { val : Z; opts : gset Z }.

#[global] Instance square_eq_dec : EqDecision square.
Proof. solve_decision. Defined.

(** [set(range(1,10))] *)
Definition digits : gset Z := list_to_set [1; 2; 3; 4; 5; 6; 7; 8; 9]%Z.

(** ** updateConstraints *)

Definition constraints : list ((nat → nat) * (nat → list nat)) :=
  [(toBox, getBox); (toRow, getRow); (toCol, getCol)].

Definition updateConstraints (sudoku : list square) (idx : nat) (value : Z)
    : result (list square) :=
  for_ constraints (λ sudoku '(key, get),
    for_ (get (key idx)) (λ sudoku i,
      square ← getitem sudoku i;
      if decide (val square = 0%Z) then
        Ok (<[i := Square (val square) (discard value (opts square))]> sudoku)
      else Ok sudoku) sudoku) sudoku.

(** ** prune *)

Definition prune_collect (sudoku : list square)
    : result (list (gset Z) * list (gset Z) * list (gset Z)) :=
  for_ (range 0 (length sudoku)) (λ '(rows, cols, boxes) i,
    sq ← getitem sudoku i;
    if decide (val sq ≠ 0%Z) then
      let row := toRow i in
      r ← getitem rows row;
      let rows := <[row := discard (val sq) r]> rows in
      let col := toCol i in
      c ← getitem cols col;
      let cols := <[col := discard (val sq) c]> cols in
      let box := toBox i in
      b ← getitem boxes box;
      let boxes := <[box := discard (val sq) b]> boxes in
      Ok (rows, cols, boxes)
    else Ok (rows, cols, boxes))
  (replicate 9 digits, replicate 9 digits, replicate 9 digits).

Definition prune (sudoku : list square) : result (list square) :=
  '(rows, cols, boxes) ← prune_collect sudoku;
  for_ (range 0 (length sudoku)) (λ sudoku i,
    sq ← getitem sudoku i;
    if decide (val sq = 0%Z) then
      r ← getitem rows (toRow i);
      c ← getitem cols (toCol i);
      b ← getitem boxes (toBox i);
      Ok (<[i := Square (val sq) (opts sq ∩ r ∩ c ∩ b)]> sudoku)
    else Ok sudoku) sudoku.

(** ** propagate *)

(** A write to the value of a square: the grid just before the write, the
    index written and the value.  The list of writes is a ghost variable of
    [propagate]: nothing reads it. *)
Record event := Event { ev_grid : list square; ev_idx : nat; ev_val : Z }.

(** First [for] loop of the [while] body: squares with one option left. *)
Definition naked_singles (sudoku : list square) (log : list event)
    : result (list square * bool * list event) :=
  for_ (range 0 (length sudoku)) (λ '(sudoku, changed, log) i,
    s ← getitem sudoku i;
    if decide (size (opts s) = 1) then
      '(v, rest) ← set_pop (opts s);
      sudoku' ← updateConstraints (<[i := Square v rest]> sudoku) i v;
      Ok (sudoku', true, log ++ [Event sudoku i v])
    else Ok (sudoku, changed, log))
  (sudoku, false, log).

(** The dictionary [data] of one group: option ↦ [[count, first index]]. *)
Definition count_options (sudoku : list square) (group : list nat)
    : result (gmap Z (nat * nat)) :=
  for_ group (λ data index,
    square ← getitem sudoku index;
    if decide (val square = 0%Z) then
      Ok (foldl (λ (data : gmap Z (nat * nat)) option,
            match data !! option with
            | Some (n, first) => <[option := (S n, first)]> data
            | None => <[option := (1, index)]> data
            end) data (set_iter (opts square)))
    else Ok data) ∅.

Definition hidden_singles_group (group : list nat)
    (st : list square * list event) : result (list square * list event) :=
  data ← count_options st.1 group;
  for_ (dict_keys data) (λ '(sudoku, log) key,
    match data !! key with
    | None => Raise KeyError
    | Some (n, idx) =>
        if decide (n = 1) then
          _ ← getitem sudoku idx;
          sudoku' ← updateConstraints (<[idx := Square key ∅]> sudoku) idx key;
          Ok (sudoku', log ++ [Event sudoku idx key])
        else Ok (sudoku, log)
    end) st.

(** Second part of the [while] body: options unique in a group. *)
Definition hidden_singles (st : list square * list event)
    : result (list square * list event) :=
  for_ [getBox; getRow; getCol] (λ st constraint,
    for_ (range 0 9) (λ st i, hidden_singles_group (constraint i) st) st) st.

Fixpoint propagate_loop (fuel : nat) (sudoku : list square) (log : list event)
    : result (list square * list event) :=
  match fuel with
  | 0 => OutOfFuel
  | S fuel =>
      '(sudoku, changed, log) ← naked_singles sudoku log;
      sudoku ← prune sudoku;
      '(sudoku, log) ← hidden_singles (sudoku, log);
      if (changed : bool) then propagate_loop fuel sudoku log
      else Ok (sudoku, log)
  end.

(** Number of options left in the whole grid: every pass of the [while] loop
    that sets [changed] removes at least one. *)
Definition options_left (sudoku : list square) : nat :=
  sum_list_with (λ s, size (opts s)) sudoku.

Definition propagate_log (sudoku : list square)
    : result (list square * list event) :=
  propagate_loop (S (options_left sudoku)) sudoku [].

Definition propagate (sudoku : list square) : result (list square) :=
  st ← propagate_log sudoku; Ok st.1.

(** ** solve *)

(** [[i, set(range(1,10)) if i == 0 else set()]] for each input digit. *)
Definition mkGrid (grid : list Z) : list square :=
  (λ i, Square i (if decide (i = 0%Z) then digits else ∅)) <$> grid.

(** [reprGrid] is only used to decide whether to write the grid to the
    output file; with no file given, all that is left of the call is its
    read of [g[0]]. *)
Definition reprGrid (g : list square) : result unit :=
  _ ← getitem g 0; Ok ().

(** Some square has no value and no option left. *)
Definition invalid_state (sudoku : list square) : bool :=
  existsb (λ s, bool_decide (val s = 0%Z ∧ size (opts s) = 0)) sudoku.

Definition count_frequency (sudoku : list square) : gmap Z nat :=
  foldl (λ (frequency : gmap Z nat) s,
    if decide (val s = 0%Z) then
      foldl (λ (frequency : gmap Z nat) p,
        match frequency !! p with
        | Some n => <[p := S n]> frequency
        | None => <[p := 1]> frequency
        end) frequency (set_iter (opts s))
    else frequency) ∅ sudoku.

Definition sortedIndices (sudoku : list square) : list nat :=
  fst <$> sorted_by (λ x, size (opts x.2))
            (zip (range 0 (length sudoku)) sudoku).

(** [sorted(s, key = lambda x: frequency[x])] *)
Definition sorted_by_frequency (frequency : gmap Z nat) (s : gset Z)
    : result (list Z) :=
  keyed ← for_ (set_iter s) (λ keyed x,
             match frequency !! x with
             | Some n => Ok (keyed ++ [(n, x)])
             | None => Raise KeyError
             end) [];
  Ok (snd <$> sorted_by fst keyed).

Definition isSolved (sudoku : list Z) : bool :=
  forallb (λ i, negb (bool_decide (i = 0%Z))) sudoku.

(** Truth value of a list: [soln and ...] *)
Definition truthy {A : Type} (l : list A) : bool :=
  match l with [] => false | _ => true end.

Section search.
(** The recursive call, and the variables of [solve] the loops read. *)
Variable solve_rec : list Z → result (option (list Z)).
Variable sudoku : list square.
Variable frequency : gmap Z nat.

(** The inner loop over the options of square [i]: [Ok (Some soln)] is
    [return soln], [Ok None] is the end of the loop. *)
Fixpoint try_values (i : nat) (values : list Z)
    : result (option (list Z)) :=
  match values with
  | [] => Ok None
  | possibleValue :: values' =>
      let branch := <[i := possibleValue]> (val <$> sudoku) in
      soln ← solve_rec branch;
      match soln with
      | Some soln =>
          if truthy soln && isSolved soln then Ok (Some soln)
          else try_values i values'
      | None => try_values i values'
      end
  end.

(** The outer loop over [sortedIndices]. *)
Fixpoint try_squares (indices : list nat) : result (option (list Z)) :=
  match indices with
  | [] => Ok None
  | i :: indices' =>
      s ← getitem sudoku i;
      if decide (val s = 0%Z) then
        values ← sorted_by_frequency frequency (opts s);
        found ← try_values i values;
        match found with
        | Some soln => Ok (Some soln)
        | None => try_squares indices'
        end
      else try_squares indices'
  end.
End search.

(** [solve(grid)] with no output file: [Ok None] is Python's [None]. *)
Fixpoint solve_fuel (fuel : nat) (grid : list Z) : result (option (list Z)) :=
  match fuel with
  | 0 => OutOfFuel
  | S fuel =>
      sudoku ← prune (mkGrid grid);
      _ ← reprGrid sudoku;
      sudoku ← propagate sudoku;
      if invalid_state sudoku then Ok None
      else
        let frequency := count_frequency sudoku in
        found ← try_squares (solve_fuel fuel) sudoku frequency
                  (sortedIndices sudoku);
        match found with
        | Some soln => Ok (Some soln)
        | None => Ok (Some (val <$> sudoku))
        end
  end.

(** Every recursive call fixes one more square, so the depth of the recursion
    is at most the number of squares. *)
Definition solve (grid : list Z) : result (option (list Z)) :=
  solve_fuel (S (length grid)) grid.

(** ** Vocabulary of the properties *)

(** The indices in [0,81) that [key] maps to group [g], in ascending order. *)
Definition members (key : nat → nat) (g : nat) : list nat :=
  filter (λ idx, key idx = g) (seq 0 81).

(** The squares [updateConstraints] visits for [idx]: its box, row and
    column, [idx] included. *)
Definition peers (idx : nat) : list nat :=
  getBox (toBox idx) ++ getRow (toRow idx) ++ getCol (toCol idx).

(** What [updateConstraints] does to one square it visits. *)
Definition strike (value : Z) (sq : square) : square :=
  if decide (val sq = 0%Z) then Square (val sq) (opts sq ∖ {[value]}) else sq.

(** [v] is a digit that no square with a value holds in group [g] of [key],
    looking only at the indices in [seen]. *)
Definition unused (key : nat → nat) (sudoku : list square) (seen : list nat)
    (g : nat) (v : Z) : Prop :=
  v ∈ digits ∧
  ∀ i sq, i ∈ seen → sudoku !! i = Some sq → val sq ≠ 0%Z → key i = g →
          val sq ≠ v.

(** The table [rows], [cols] or [boxes] of [prune] after the indices [seen]. *)
Definition collected (key : nat → nat) (sudoku : list square)
    (seen : list nat) (table : list (gset Z)) : Prop :=
  length table = 9 ∧
  ∀ g R, table !! g = Some R → ∀ v, v ∈ R ↔ unused key sudoku seen g v.

(** What [prune] makes of square [j]: a square with a value is left alone,
    and an open square keeps the options that are digits no peer holds. *)
Definition pruned_square (sudoku : list square) (j : nat) (sq sq' : square)
    : Prop :=
  val sq' = val sq ∧
  (val sq ≠ 0%Z → sq' = sq) ∧
  (val sq = 0%Z →
   ∀ v, v ∈ opts sq' ↔
        v ∈ opts sq ∧ v ∈ digits ∧
        ∀ i sqi, sudoku !! i = Some sqi → val sqi ≠ 0%Z → i ∈ peers j →
                 val sqi ≠ v).

(** The invariant of the representation: a value is 0 or a digit, options
    are digits, and a square with a value has no options. *)
Definition square_ok (sq : square) : Prop :=
  (val sq = 0%Z ∨ val sq ∈ digits) ∧ opts sq ⊆ digits
  ∧ (val sq ≠ 0%Z → opts sq = ∅).

Definition grid_ok (sudoku : list square) : Prop :=
  length sudoku = 81 ∧ Forall square_ok sudoku.

(** No option of a square is the value of one of its peers. *)
Definition pruned (sudoku : list square) : Prop :=
  ∀ i j sqi sqj, sudoku !! i = Some sqi → sudoku !! j = Some sqj →
    j ∈ peers i → i ≠ j → val sqj ≠ 0%Z → val sqj ∉ opts sqi.

(** No two peers hold the same value. *)
Definition distinct (sudoku : list square) : Prop :=
  ∀ i j sqi sqj, sudoku !! i = Some sqi → sudoku !! j = Some sqj →
    j ∈ peers i → i ≠ j → val sqj ≠ 0%Z → val sqi ≠ val sqj.

(** From [s] to [s']: options only disappear and values stay. *)
Definition evolves (s s' : list square) : Prop :=
  length s' = length s ∧
  ∀ j sq sq', s !! j = Some sq → s' !! j = Some sq' →
    opts sq' ⊆ opts sq ∧ (val sq ≠ 0%Z → val sq' = val sq).

(** The value written differs from the value of every peer that has one. *)
Definition sound_write (sudoku : list square) (idx : nat) (v : Z) : Prop :=
  ∀ j sq, j ∈ peers idx → j ≠ idx → sudoku !! j = Some sq → val sq ≠ 0%Z →
          val sq ≠ v.

Definition ev_sound (e : event) : Prop :=
  sound_write (ev_grid e) (ev_idx e) (ev_val e).

(** [s'] is [s] after square [idx] got the value [v] and
    [updateConstraints] ran. *)
Definition assigned (s : list square) (idx : nat) (v : Z) (s' : list square)
    : Prop :=
  length s' = 81 ∧ s' !! idx = Some (Square v ∅) ∧
  ∀ j sq, j ≠ idx → s !! j = Some sq →
    s' !! j = Some (if decide (j ∈ peers idx) then strike v sq else sq).

(** What a part of [propagate] that takes [s0] to [s], writing [log],
    guarantees. *)
Record step_inv (s0 s : list square) (log : list event) : Prop := StepInv {
  si_ok : grid_ok s;
  si_evolves : evolves s0 s;
  si_pruned : pruned s0 → pruned s;
  si_distinct : pruned s0 → distinct s0 → distinct s;
  si_sound : pruned s0 → Forall ev_sound log;
}.

(** Every entry of the dictionary [data] points at a square of the grid it
    was counted on that has no value and admits the key. *)
Definition data_ok (sudoku : list square) (data : gmap Z (nat * nat)) : Prop :=
  ∀ k n t, data !! k = Some (n, t) →
    ∃ sq, sudoku !! t = Some sq ∧ val sq = 0%Z ∧ k ∈ opts sq.

(** Order of two elements after a stable sort by [key] of a list in which
    [R] relates each element to the later ones. *)
Definition key_then {A : Type} (key : A → nat) (R : relation A) : relation A :=
  λ x y, key x < key y ∨ (key x = key y ∧ R x y).

(** Number of options of square [i]. *)
Definition n_options (sudoku : list square) (i : nat) : nat :=
  from_option (λ sq, size (opts sq)) 0 (sudoku !! i).

(** Square [i] comes before square [j] in the order of branching: fewer
    options, or as many and a lower index. *)
Definition before (sudoku : list square) : relation nat :=
  key_then (n_options sudoku) lt.

(** The squares of [l] that have no value and admit [v]. *)
Definition admitting (v : Z) (l : list square) : nat :=
  length (filter (λ sq, val sq = 0%Z ∧ v ∈ opts sq) l).

(** The squares other than [i] that have no value and admit [v]. *)
Definition others_admitting (sudoku : list square) (i : nat) (v : Z) : nat :=
  admitting v (delete i sudoku).

(** A counter of a dictionary after [n] more increments. *)
Definition bump (o : option nat) (n : nat) : option nat :=
  match n with 0 => o | S _ => Some (default 0 o + n) end.

(** The options [o] in the order [solve] tries them. *)
Definition values_in_order (frequency : gmap Z nat) (o : gset Z) : list Z :=
  snd <$> sorted_by fst ((λ x, (default 0 (frequency !! x), x)) <$> set_iter o).

(** The grid [solve] has in hand before it looks for squares without
    options: the input loaded, pruned and propagated. *)
Definition propagated (grid : list Z) : result (list square) :=
  sudoku ← prune (mkGrid grid); _ ← reprGrid sudoku; propagate sudoku.

(** The guesses of the two nested loops of [solve], in the order in which
    they are tried: (square, value). *)
Definition square_guesses (sudoku : list square) (frequency : gmap Z nat)
    (i : nat) : list (nat * Z) :=
  match sudoku !! i with
  | Some s =>
      if decide (val s = 0%Z)
      then (λ v, (i, v)) <$> values_in_order frequency (opts s)
      else []
  | None => []
  end.

Definition guesses (sudoku : list square) : list (nat * Z) :=
  sortedIndices sudoku ≫= square_guesses sudoku (count_frequency sudoku).

(** [soln and isSolved(soln)] *)
Definition solved_by (soln : option (list Z)) : bool :=
  match soln with
  | Some soln => truthy soln && isSolved soln
  | None => false
  end.

(** The result of the first guess of [gs] on which the recursive call
    returns a solved grid. *)
Fixpoint first_solved (solve_rec : list Z → result (option (list Z)))
    (sudoku : list square) (gs : list (nat * Z)) : result (option (list Z)) :=
  match gs with
  | [] => Ok None
  | (i, v) :: gs' =>
      soln ← solve_rec (<[i := v]> (val <$> sudoku));
      if solved_by soln then Ok soln else first_solved solve_rec sudoku gs'
  end.

(** An input of [solve]: 81 integers in [0,9]. *)
Definition input_ok (grid : list Z) : Prop :=
  length grid = 81 ∧ Forall (λ v, (0 ≤ v ≤ 9)%Z) grid.

Definition zeros (grid : list Z) : nat := length (filter (λ v, v = 0%Z) grid).

(** No two peers hold the same nonzero digit. *)
Definition no_conflict (grid : list Z) : Prop :=
  ∀ i j vi vj, grid !! i = Some vi → grid !! j = Some vj →
    j ∈ peers i → i ≠ j → vj ≠ 0%Z → vi ≠ vj.

(** Every nonzero digit of [grid] is at the same place in [soln]. *)
Definition keeps_givens (grid soln : list Z) : Prop :=
  ∀ i v, grid !! i = Some v → v ≠ 0%Z → soln !! i = Some v.

(** The 27 groups, and a grid in which each holds each digit exactly once. *)
Definition groups : list (list nat) :=
  (getRow <$> seq 0 9) ++ (getCol <$> seq 0 9) ++ (getBox <$> seq 0 9).

Definition group_values (soln : list Z) (group : list nat) : list Z :=
  (λ i, default 0%Z (soln !! i)) <$> group.

Definition once (v : Z) (l : list Z) : Prop :=
  length (filter (λ x, x = v) l) = 1.

#[global] Instance once_dec v l : Decision (once v l).
Proof. unfold once. apply _. Defined.

Definition valid_grid (soln : list Z) : Prop :=
  Forall (λ group,
    Forall (λ v, once v (group_values soln group)) (set_iter digits)) groups.

#[global] Instance valid_grid_dec soln : Decision (valid_grid soln).
Proof. unfold valid_grid. apply _. Defined.

(** What [solve] returns on [grid], [sudoku] being the propagated grid. *)
Definition outcome (grid : list Z) (sudoku : list square)
    (r : option (list Z)) : Prop :=
  match r with
  | None => invalid_state sudoku = true
  | Some soln =>
      invalid_state sudoku = false ∧ input_ok soln ∧ keeps_givens grid soln
      ∧ (no_conflict grid → no_conflict soln)
      ∧ (isSolved soln = true ∨ soln = val <$> sudoku)
  end.

(** ** Concrete grids *)

(** A published puzzle and its solution. *)
Definition puzzle1 : list Z :=
  [0;0;3;0;2;0;6;0;0; 9;0;0;3;0;5;0;0;1; 0;0;1;8;0;6;4;0;0;
   0;0;8;1;0;2;9;0;0; 7;0;0;0;0;0;0;0;8; 0;0;6;7;0;8;2;0;0;
   0;0;2;6;0;9;5;0;0; 8;0;0;2;0;3;0;0;9; 0;0;5;0;1;0;3;0;0]%Z.

Definition solution1 : list Z :=
  [4;8;3;9;2;1;6;5;7; 9;6;7;3;4;5;8;2;1; 2;5;1;8;7;6;4;9;3;
   5;4;8;1;3;2;9;7;6; 7;2;9;5;6;4;1;3;8; 1;3;6;7;9;8;2;4;5;
   3;7;2;6;8;9;5;1;4; 8;1;4;2;5;3;7;6;9; 6;9;5;4;1;7;3;8;2]%Z.

(** Every square given, all of them 1. *)
Definition all_ones : list Z := replicate 81 1%Z.

(** [solution1] with the 8 of square 1 replaced by a second 4 in row 0, and
    the last square left open. *)
Definition two_fours : list Z := <[1 := 4%Z]> (<[80 := 0%Z]> solution1).

(** Six open squares (rows 0 and 1, columns 0 to 2) that admit only 1 and
    2: three squares of a row for two digits. *)
Definition dead_end : list Z :=
  [0;0;0;3;4;5;6;7;8; 0;0;0;3;4;5;6;7;8; 9;9;9;9;9;9;9;9;9;
   9;9;9;9;9;9;9;9;9; 9;9;9;9;9;9;9;9;9; 9;9;9;9;9;9;9;9;9;
   9;9;9;9;9;9;9;9;9; 9;9;9;9;9;9;9;9;9; 9;9;9;9;9;9;9;9;9]%Z.

(** Eleven givens without conflict.  No square has a single option; 1 can
    only go to square 73 in box 6, which leaves square 37 with the single
    option 2. *)
Definition late_single : list Z :=
  [0;0;1;0;0;0;0;0;0; 0;0;0;0;0;0;0;0;0; 0;0;0;0;0;0;0;0;0;
   0;0;0;0;0;0;0;0;0; 0;0;3;4;5;6;7;8;9; 0;0;0;0;0;0;0;0;0;
   0;0;0;1;0;0;0;0;0; 0;0;0;0;0;0;1;0;0; 6;0;0;0;0;0;0;0;0]%Z.

(** The value returned, or [d] when there is none. *)
Definition returned {A : Type} (d : A) (r : result A) : A :=
  match r with Ok a => a | _ => d end.

(** [late_single] as [propagate] receives it from [solve]. *)
Definition late_single_pruned : list square :=
  returned [] (prune (mkGrid late_single)).

(** [late_single_pruned] after [propagate], with the writes, and after a
    second [propagate]. *)
Definition late_single_propagated : list square * list event :=
  returned ([], []) (propagate_log late_single_pruned).

Definition late_single_again : list square * list event :=
  returned ([], []) (propagate_log (fst late_single_propagated)).

(** The value of [changed] after the first [for] loop of [propagate]. *)
Definition changed_by_naked_singles (sudoku : list square) : result bool :=
  match naked_singles sudoku [] with
  | Ok (_, changed, _) => Ok changed
  | Raise e => Raise e
  | OutOfFuel => OutOfFuel
  end.

(** The squares and values written, and a square with its options listed. *)
Definition writes (log : list event) : list (nat * Z) :=
  (λ e, (ev_idx e, ev_val e)) <$> log.

Definition show_square (sq : square) : Z * list Z :=
  (val sq, set_iter (opts sq)).

(** [dead_end] after the initial prune and propagate of [solve]. *)
Definition dead_end_propagated : list square :=
  returned [] (propagated dead_end).

(** ** Checkers for concrete grids *)

Definition cell (grid : list Z) (i : nat) : Z := default 0%Z (grid !! i).

Definition no_conflictb (grid : list Z) : bool :=
  forallb (λ i,
    forallb (λ j,
      bool_decide (i = j) || bool_decide (cell grid j = 0%Z)
      || bool_decide (cell grid i ≠ cell grid j)) (peers i))
  (seq 0 (length grid)).

Definition prunedb (sudoku : list square) : bool :=
  forallb (λ i,
    forallb (λ j,
      bool_decide (i = j) ||
      match sudoku !! i, sudoku !! j with
      | Some sqi, Some sqj =>
          bool_decide (val sqj = 0%Z) || bool_decide (val sqj ∉ opts sqi)
      | _, _ => true
      end) (peers i))
  (seq 0 (length sudoku)).

#[global] Instance input_ok_dec grid : Decision (input_ok grid).
Proof. unfold input_ok. apply _. Defined.

#[global] Instance square_ok_dec sq : Decision (square_ok sq).
Proof. unfold square_ok. apply _. Defined.

#[global] Instance grid_ok_dec sudoku : Decision (grid_ok sudoku).
Proof. unfold grid_ok. apply _. Defined.

(** ** Vocabulary of the further properties *)

(** Square [i] of the grid has no value and admits [k]. *)
Definition admits (sudoku : list square) (k : Z) (i : nat) : Prop :=
  ∃ sq, sudoku !! i = Some sq ∧ val sq = 0%Z ∧ k ∈ opts sq.

#[global] Instance admits_dec sudoku k i : Decision (admits sudoku k i).
Proof.
  unfold admits. destruct (sudoku !! i) as [sq|].
  - destruct (decide (val sq = 0%Z ∧ k ∈ opts sq)) as [H|H].
    + left. by exists sq.
    + right. intros (sq' & [= <-] & H'). by apply H.
  - right. by intros (sq' & [=] & _).
Defined.

(** The entry of [data] for a key admitted by the squares [cells] of the
    group, in the order of the group. *)
Definition tally (cells : list nat) : option (nat * nat) :=
  match cells with
  | [] => None
  | first :: rest => Some (S (length rest), first)
  end.

(** The grid agrees with the completed grid [G]: a square with a value
    has the value of [G], and an open square admits it. *)
Definition agrees (G : list Z) (sudoku : list square) : Prop :=
  ∀ j sq, sudoku !! j = Some sq →
    ∃ g, G !! j = Some g ∧ (val sq ≠ 0%Z → val sq = g)
         ∧ (val sq = 0%Z → g ∈ opts sq).

(** The computation [m] raises [IndexError] or returns a result that
    satisfies [P]. *)
Definition index_checked {A : Type} (P : A → Prop) (m : result A) : Prop :=
  m = Raise IndexError ∨ ∃ a, m = Ok a ∧ P a.

(** [solution1] with its last square open. *)
Definition last_open : list Z := <[80 := 0%Z]> solution1.

(** * Properties *)

(** ** The [result] monad and [for] loops *)

Lemma bind_Ok {A B : Type} (m : result A) (f : A → result B) (b : B) :
  m ≫= f = Ok b ↔ ∃ a, m = Ok a ∧ f a = Ok b.
Proof.
  destruct m as [a| |]; simpl; split; try (by intros (? & ? & ?)); try done.
  - intros H. by exists a.
  - by intros (a' & [= ->] & H).
Qed.

Lemma getitem_Some {A : Type} (l : list A) (i : nat) (x : A) :
  l !! i = Some x → getitem l i = Ok x.
Proof. unfold getitem. by intros ->. Qed.

Lemma getitem_Ok {A : Type} (l : list A) (i : nat) (x : A) :
  getitem l i = Ok x ↔ l !! i = Some x.
Proof. unfold getitem. destruct (l !! i); naive_solver. Qed.

Lemma for__app {A S : Type} (l1 l2 : list A) (body : S → A → result S) (s : S) :
  for_ (l1 ++ l2) body s = for_ l1 body s ≫= for_ l2 body.
Proof.
  revert s. induction l1 as [|x l1 IH]; intros s; simpl; [done|].
  destruct (body s x) as [s'| |]; simpl; [apply IH|done|done].
Qed.

(** Total correctness of a loop from an invariant on the elements already
    visited and the loop-carried state. *)
Lemma for__invariant {A S : Type} (I : list A → S → Prop)
    (body : S → A → result S) (l : list A) (s0 : S) :
  I [] s0 →
  (∀ pre x post s, l = pre ++ x :: post → I pre s →
     ∃ s', body s x = Ok s' ∧ I (pre ++ [x]) s') →
  ∃ s', for_ l body s0 = Ok s' ∧ I l s'.
Proof.
  revert I s0. induction l as [|x l IH]; intros I s0 H0 Hstep; simpl.
  - by exists s0.
  - destruct (Hstep [] x l s0 eq_refl H0) as (s1 & -> & H1). simpl.
    apply (IH (λ pre s, I (x :: pre) s)); [done|].
    intros pre y post s -> Hpre.
    apply (Hstep (x :: pre) y post s); done.
Qed.

(** ** Iteration order of sets and dictionaries *)

#[local] Instance Zle_total : Total Z.le.
Proof. intros x y. lia. Qed.

Lemma set_iter_perm (s : gset Z) : set_iter s ≡ₚ elements s.
Proof. apply merge_sort_Permutation. Qed.

Lemma elem_of_set_iter (s : gset Z) (x : Z) : x ∈ set_iter s ↔ x ∈ s.
Proof. rewrite set_iter_perm. apply elem_of_elements. Qed.

Lemma NoDup_set_iter (s : gset Z) : NoDup (set_iter s).
Proof. rewrite set_iter_perm. apply NoDup_elements. Qed.

Lemma length_set_iter (s : gset Z) : length (set_iter s) = size s.
Proof. by rewrite set_iter_perm. Qed.

Lemma elem_of_dict_keys {V : Type} (d : gmap Z V) (k : Z) :
  k ∈ dict_keys d ↔ is_Some (d !! k).
Proof.
  unfold dict_keys. rewrite merge_sort_Permutation. rewrite elem_of_elements.
  apply elem_of_dom.
Qed.

Lemma NoDup_dict_keys {V : Type} (d : gmap Z V) : NoDup (dict_keys d).
Proof. unfold dict_keys. rewrite merge_sort_Permutation. apply NoDup_elements. Qed.

Lemma discard_difference (v : Z) (s : gset Z) : discard v s = s ∖ {[v]}.
Proof. unfold discard. case_decide; set_solver. Qed.

Lemma set_pop_singleton (s : gset Z) :
  size s = 1 → ∃ v, s = {[v]} ∧ set_pop s = Ok (v, ∅).
Proof.
  intros Hs. destruct (size_1_elem_of s Hs) as [v Hv].
  apply leibniz_equiv in Hv. subst s. exists v. split; [done|].
  unfold set_pop, set_iter. rewrite elements_singleton. simpl.
  f_equal. f_equal. set_solver.
Qed.

(** ** Geometry *)

Lemma below_81 (P : nat → Prop) `{!∀ i, Decision (P i)} :
  bool_decide (Forall P (seq 0 81)) → ∀ i, i < 81 → P i.
Proof.
  intros HP%bool_decide_unpack i Hi. rewrite Forall_forall in HP.
  apply HP, elem_of_seq. lia.
Qed.

Lemma below_9 (P : nat → Prop) `{!∀ i, Decision (P i)} :
  bool_decide (Forall P (seq 0 9)) → ∀ i, i < 9 → P i.
Proof.
  intros HP%bool_decide_unpack i Hi. rewrite Forall_forall in HP.
  apply HP, elem_of_seq. lia.
Qed.

Lemma toRow_lt idx : idx < 81 → toRow idx < 9.
Proof. apply (below_81 (λ idx, toRow idx < 9)). by vm_compute. Qed.

Lemma toCol_lt idx : idx < 81 → toCol idx < 9.
Proof. apply (below_81 (λ idx, toCol idx < 9)). by vm_compute. Qed.

Lemma toBox_lt idx : idx < 81 → toBox idx < 9.
Proof. apply (below_81 (λ idx, toBox idx < 9)). by vm_compute. Qed.

Lemma getRow_members g : g < 9 → getRow g = members toRow g.
Proof. apply (below_9 (λ g, getRow g = members toRow g)). by vm_compute. Qed.

Lemma getCol_members g : g < 9 → getCol g = members toCol g.
Proof. apply (below_9 (λ g, getCol g = members toCol g)). by vm_compute. Qed.

Lemma getBox_members g : g < 9 → getBox g = members toBox g.
Proof. apply (below_9 (λ g, getBox g = members toBox g)). by vm_compute. Qed.

Lemma elem_of_members key g j : j ∈ members key g ↔ j < 81 ∧ key j = g.
Proof.
  unfold members. rewrite list_elem_of_filter, elem_of_seq. naive_solver lia.
Qed.

Lemma elem_of_peers idx j :
  idx < 81 →
  j ∈ peers idx ↔
    j < 81 ∧ (toBox j = toBox idx ∨ toRow j = toRow idx ∨ toCol j = toCol idx).
Proof.
  intros Hidx. unfold peers.
  rewrite getBox_members, getRow_members, getCol_members
    by auto using toBox_lt, toRow_lt, toCol_lt.
  rewrite !elem_of_app, !elem_of_members. naive_solver.
Qed.

Lemma peers_lt idx j : idx < 81 → j ∈ peers idx → j < 81.
Proof. intros Hidx. rewrite elem_of_peers by done. tauto. Qed.

Lemma peers_refl idx : idx < 81 → idx ∈ peers idx.
Proof. intros Hidx. rewrite elem_of_peers by done. tauto. Qed.

Lemma peers_sym i j : i < 81 → j ∈ peers i → i ∈ peers j.
Proof.
  intros Hi Hj. pose proof (peers_lt _ _ Hi Hj) as Hj'.
  rewrite elem_of_peers in Hj |- * by done. naive_solver.
Qed.

(** ** updateConstraints *)

Lemma for__ext {A S : Type} (body1 body2 : S → A → result S) (l : list A) (s : S) :
  (∀ s x, body1 s x = body2 s x) → for_ l body1 s = for_ l body2 s.
Proof.
  intros Hext. revert s. induction l as [|x l IH]; intros s; simpl; [done|].
  rewrite Hext. destruct (body2 s x); simpl; auto.
Qed.

Lemma bind_ret_r {A : Type} (m : result A) : m ≫= Ok = m.
Proof. by destruct m. Qed.

(** A loop that rewrites each visited square with an idempotent [f]. *)
Lemma for__stamp (f : square → square) (L : list nat) (s : list square) :
  (∀ x, f (f x) = f x) →
  (∀ i, i ∈ L → i < length s) →
  ∃ s', for_ L (λ s i, sq ← getitem s i; Ok (<[i := f sq]> s)) s = Ok s'
        ∧ length s' = length s
        ∧ ∀ j, s' !! j = (if decide (j ∈ L) then f else id) <$> s !! j.
Proof.
  intros Hidem HL.
  edestruct (for__invariant (λ pre s',
    length s' = length s
    ∧ ∀ j, s' !! j = (if decide (j ∈ pre) then f else id) <$> s !! j)
    (λ s i, sq ← getitem s i; Ok (<[i := f sq]> s)) L s) as (s' & ? & ? & ?);
    [| |by exists s'].
  - split; [done|]. intros j. rewrite decide_False by set_solver.
    by destruct (s !! j).
  - intros pre x post s1 -> [Hlen Hs1].
    assert (x < length s) as Hx.
    { apply HL. rewrite elem_of_app, elem_of_cons. tauto. }
    destruct (lookup_lt_is_Some_2 s x Hx) as [sq0 Hsq0].
    pose proof (Hs1 x) as Hs1x. rewrite Hsq0 in Hs1x. simpl in Hs1x.
    rewrite (getitem_Some _ _ _ Hs1x). simpl. eexists. split; [done|].
    split; [by rewrite length_insert|].
    intros j. destruct (decide (j = x)) as [->|Hne].
    + rewrite list_lookup_insert_eq by lia.
      rewrite Hsq0. simpl.
      destruct (decide (x ∈ pre ++ [x])) as [_|Hn].
      * case_decide; simpl; by rewrite ?Hidem.
      * destruct Hn. rewrite elem_of_app, list_elem_of_singleton. tauto.
    + rewrite list_lookup_insert_ne by done. rewrite Hs1.
      destruct (s !! j); simpl; [|done].
      repeat case_decide; try done;
        rewrite elem_of_app, list_elem_of_singleton in *; tauto.
Qed.

Lemma strike_idem v sq : strike v (strike v sq) = strike v sq.
Proof.
  unfold strike. destruct (decide (val sq = 0%Z)) as [H0|H0]; simpl.
  - rewrite decide_True by done. f_equal. set_solver.
  - by rewrite decide_False.
Qed.

Lemma updateConstraints_peers sudoku idx value :
  updateConstraints sudoku idx value =
  for_ (peers idx)
    (λ s i, sq ← getitem s i; Ok (<[i := strike value sq]> s)) sudoku.
Proof.
  unfold updateConstraints, peers, constraints. simpl.
  rewrite !for__app.
  assert (∀ l s,
    for_ l (λ sudoku i,
      square ← getitem sudoku i;
      if decide (val square = 0%Z) then
        Ok (<[i := Square (val square) (discard value (opts square))]> sudoku)
      else Ok sudoku) s
    = for_ l (λ s i, sq ← getitem s i; Ok (<[i := strike value sq]> s)) s)
    as Hbody.
  { intros l s. apply for__ext. clear. intros s i. unfold getitem.
    destruct (s !! i) as [sq|] eqn:Hsq; simpl; [|done].
    unfold strike. case_decide.
    - by rewrite discard_difference.
    - by rewrite list_insert_id. }
  rewrite Hbody. destruct (for_ (getBox _) _ _); simpl; [|done..].
  rewrite for__app, Hbody. destruct (for_ (getRow _) _ _); simpl; [|done..].
  rewrite Hbody. by destruct (for_ (getCol _) _ _).
Qed.

Lemma updateConstraints_spec sudoku idx value :
  length sudoku = 81 → idx < 81 →
  ∃ s', updateConstraints sudoku idx value = Ok s'
        ∧ length s' = 81
        ∧ ∀ j, s' !! j =
            (if decide (j ∈ peers idx) then strike value else id) <$> sudoku !! j.
Proof.
  intros Hlen Hidx. rewrite updateConstraints_peers.
  destruct (for__stamp (strike value) (peers idx) sudoku) as (s' & ? & ? & ?).
  - apply strike_idem.
  - intros i Hi. rewrite Hlen. by eapply peers_lt.
  - exists s'. split_and!; [done|congruence|done].
Qed.

(** ** prune *)

Lemma elem_of_digits (v : Z) : v ∈ digits ↔ (1 ≤ v ≤ 9)%Z.
Proof.
  unfold digits. rewrite elem_of_list_to_set, !elem_of_cons, elem_of_nil. lia.
Qed.

Section collect.
Variable key : nat → nat.
Variable sudoku : list square.

Lemma collected_init : collected key sudoku [] (replicate 9 digits).
Proof.
  split; [done|]. intros g R [-> _]%lookup_replicate v. unfold unused.
  split; [|tauto]. intros Hv. split; [done|]. intros i sq Hi.
  by apply elem_of_nil in Hi.
Qed.

Lemma collected_open seen table i sq :
  sudoku !! i = Some sq → val sq = 0%Z →
  collected key sudoku seen table → collected key sudoku (seen ++ [i]) table.
Proof.
  intros Hi H0 [Hlen Htab]. split; [done|]. intros g R HR v.
  rewrite (Htab g R HR v). unfold unused.
  split; intros [Hv Hu]; (split; [done|]); intros j sqj Hj Hsqj Hne Hg.
  - apply elem_of_app in Hj as [Hj|Hj%list_elem_of_singleton]; [eauto|].
    subst j. congruence.
  - apply (Hu j sqj); [|done..]. apply elem_of_app. by left.
Qed.

Lemma collected_fixed seen table i sq :
  sudoku !! i = Some sq → val sq ≠ 0%Z → key i < 9 →
  collected key sudoku seen table →
  ∃ R, table !! key i = Some R ∧
       collected key sudoku (seen ++ [i])
         (<[key i := discard (val sq) R]> table).
Proof.
  intros Hi Hne Hk [Hlen Htab].
  destruct (lookup_lt_is_Some_2 table (key i)) as [R HR]; [lia|].
  exists R. split; [done|]. split; [by rewrite length_insert|].
  intros g R' HR' v. unfold unused.
  destruct (decide (g = key i)) as [->|Hg].
  - rewrite list_lookup_insert_eq in HR' by lia. injection HR' as <-.
    rewrite discard_difference, elem_of_difference, elem_of_singleton.
    rewrite (Htab _ _ HR v). unfold unused.
    split.
    + intros [[Hv Hu] Hvi]. split; [done|]. intros j sqj Hj Hsqj Hnej Hgj.
      apply elem_of_app in Hj as [Hj|Hj%list_elem_of_singleton]; [eauto|].
      subst j. congruence.
    + intros [Hv Hu]. split; [split; [done|]|].
      * intros j sqj Hj. apply Hu. apply elem_of_app. by left.
      * intros ->. apply (Hu i sq); [|done..].
        apply elem_of_app. right. by apply list_elem_of_singleton.
  - rewrite list_lookup_insert_ne in HR' by done.
    rewrite (Htab _ _ HR' v). unfold unused.
    split; intros [Hv Hu]; (split; [done|]); intros j sqj Hj Hsqj Hnej Hgj.
    + apply elem_of_app in Hj as [Hj|Hj%list_elem_of_singleton]; [eauto|].
      subst j. congruence.
    + apply (Hu j sqj); [|done..]. apply elem_of_app. by left.
Qed.
End collect.

Lemma prune_collect_spec sudoku :
  length sudoku = 81 →
  ∃ rows cols boxes,
    prune_collect sudoku = Ok (rows, cols, boxes)
    ∧ collected toRow sudoku (seq 0 81) rows
    ∧ collected toCol sudoku (seq 0 81) cols
    ∧ collected toBox sudoku (seq 0 81) boxes.
Proof.
  intros Hlen. unfold prune_collect. rewrite Hlen.
  change (range 0 81) with (seq 0 81).
  edestruct (for__invariant (λ seen '(rows, cols, boxes),
      collected toRow sudoku seen rows ∧ collected toCol sudoku seen cols
      ∧ collected toBox sudoku seen boxes)) as ([[rows cols] boxes] & Hfor & HI);
    [| |by rewrite Hfor; exists rows, cols, boxes].
  - split_and!; apply collected_init.
  - intros seen i post [[rows cols] boxes] Hseq (Hr & Hc & Hb).
    assert (i < 81) as Hi.
    { assert (i ∈ seq 0 81) as Hin%elem_of_seq; [|lia].
      rewrite Hseq, elem_of_app, elem_of_cons. tauto. }
    destruct (lookup_lt_is_Some_2 sudoku i) as [sq Hsq]; [lia|].
    rewrite (getitem_Some _ _ _ Hsq). simpl. case_decide as Hv.
    + destruct (collected_fixed toRow sudoku seen rows i sq)
        as (R & HR & Hr'); [done..|by apply toRow_lt|done|].
      destruct (collected_fixed toCol sudoku seen cols i sq)
        as (C & HC & Hc'); [done..|by apply toCol_lt|done|].
      destruct (collected_fixed toBox sudoku seen boxes i sq)
        as (B & HB & Hb'); [done..|by apply toBox_lt|done|].
      rewrite (getitem_Some _ _ _ HR). simpl.
      rewrite (getitem_Some _ _ _ HC). simpl.
      rewrite (getitem_Some _ _ _ HB). simpl.
      eexists. split; [done|]. done.
    + assert (val sq = 0%Z) as H0 by (by destruct (decide (val sq = 0%Z))).
      eexists. split; [done|].
      split_and!; by eapply collected_open.
Qed.

Lemma unused_peers sudoku j v :
  j < 81 →
  unused toRow sudoku (seq 0 81) (toRow j) v
  ∧ unused toCol sudoku (seq 0 81) (toCol j) v
  ∧ unused toBox sudoku (seq 0 81) (toBox j) v
  ↔ v ∈ digits ∧
    ∀ i sqi, sudoku !! i = Some sqi → val sqi ≠ 0%Z → i ∈ peers j → val sqi ≠ v.
Proof.
  intros Hj. unfold unused. split.
  - intros ((Hv & Hr) & (_ & Hc) & (_ & Hb)). split; [done|].
    intros i sqi Hi Hne Hp. apply elem_of_peers in Hp as [Hi' Hp]; [|done].
    assert (i ∈ seq 0 81) by (apply elem_of_seq; lia).
    destruct Hp as [?|[?|?]]; eauto.
  - intros [Hv Hu].
    split_and!; try done; intros i sqi Hi%elem_of_seq Hsq Hne Hk;
      apply (Hu i sqi); try done; apply elem_of_peers; try done;
      (split; [lia|]); auto.
Qed.

Lemma prune_spec sudoku :
  length sudoku = 81 →
  ∃ s', prune sudoku = Ok s' ∧ length s' = 81 ∧
    ∀ j sq, sudoku !! j = Some sq →
      ∃ sq', s' !! j = Some sq' ∧ pruned_square sudoku j sq sq'.
Proof.
  intros Hlen.
  destruct (prune_collect_spec sudoku Hlen)
    as (rows & cols & boxes & Hcol & [Hlr Hr] & [Hlc Hc] & [Hlb Hb]).
  unfold prune. rewrite Hcol. simpl. rewrite Hlen.
  change (range 0 81) with (seq 0 81).
  edestruct (for__invariant (λ seen s',
      length s' = 81 ∧
      ∀ j sq, sudoku !! j = Some sq →
        if decide (j ∈ seen)
        then ∃ sq', s' !! j = Some sq' ∧ pruned_square sudoku j sq sq'
        else s' !! j = Some sq)) as (s' & Hfor & Hlen' & Hs');
    [| |exists s'; split; [exact Hfor|split; [exact Hlen'|]]].
  - split; [done|]. intros j sq Hsq. by rewrite decide_False by apply not_elem_of_nil.
  - intros seen x post s1 Hseq [Hlen1 Hs1].
    assert (NoDup (seen ++ x :: post)) as Hnd by (rewrite <-Hseq; apply NoDup_seq).
    apply NoDup_app in Hnd as (_ & Hnd & _).
    assert (x ∉ seen) as Hx by (intros Hin; apply (Hnd x Hin); left).
    assert (x < 81) as Hx81.
    { assert (x ∈ seq 0 81) as Hin%elem_of_seq; [|lia].
      rewrite Hseq, elem_of_app, elem_of_cons. tauto. }
    destruct (lookup_lt_is_Some_2 sudoku x) as [sq Hsq]; [lia|].
    pose proof (Hs1 x sq Hsq) as Hs1x. rewrite decide_False in Hs1x by done.
    rewrite (getitem_Some _ _ _ Hs1x). simpl.
    assert (∀ s2 sq2,
      length s2 = 81 → s2 !! x = Some sq2 → pruned_square sudoku x sq sq2 →
      (∀ j, j ≠ x → s2 !! j = s1 !! j) →
      length s2 = 81 ∧
      ∀ j sqj, sudoku !! j = Some sqj →
        if decide (j ∈ seen ++ [x])
        then ∃ sq', s2 !! j = Some sq' ∧ pruned_square sudoku j sqj sq'
        else s2 !! j = Some sqj) as Hstep.
    { intros s2 sq2 Hl2 Hx2 Hp2 Hne2. split; [done|]. intros j sqj Hj.
      destruct (decide (j = x)) as [->|Hjx].
      - rewrite decide_True by (rewrite elem_of_app, list_elem_of_singleton; tauto).
        exists sq2. by simplify_eq.
      - rewrite Hne2 by done. specialize (Hs1 j sqj Hj).
        destruct (decide (j ∈ seen)).
        + rewrite decide_True by (rewrite elem_of_app; tauto). done.
        + rewrite decide_False; [done|].
          rewrite elem_of_app, list_elem_of_singleton. tauto. }
    case_decide as H0.
    + destruct (lookup_lt_is_Some_2 rows (toRow x)) as [R HR];
        [pose proof (toRow_lt x Hx81); lia|].
      destruct (lookup_lt_is_Some_2 cols (toCol x)) as [C HC];
        [pose proof (toCol_lt x Hx81); lia|].
      destruct (lookup_lt_is_Some_2 boxes (toBox x)) as [B HB];
        [pose proof (toBox_lt x Hx81); lia|].
      rewrite (getitem_Some _ _ _ HR). simpl.
      rewrite (getitem_Some _ _ _ HC). simpl.
      rewrite (getitem_Some _ _ _ HB). simpl.
      eexists. split; [done|]. eapply Hstep.
      * by rewrite length_insert.
      * apply list_lookup_insert_eq. lia.
      * split; [done|]. split; [done|]. intros _ v. simpl.
        rewrite !elem_of_intersection, (Hr _ _ HR), (Hc _ _ HC), (Hb _ _ HB).
        rewrite <-(unused_peers sudoku x v Hx81). tauto.
      * intros j Hj. by apply list_lookup_insert_ne.
    + eexists. split; [done|]. eapply Hstep; [done|exact Hs1x| |done].
      split; [done|]. split; [done|]. done.
  - intros j sq Hsq. specialize (Hs' j sq Hsq).
    rewrite decide_True in Hs'; [done|].
    apply elem_of_seq. apply lookup_lt_Some in Hsq. lia.
Qed.

(** ** Writing a value into a square *)

Lemma assign_spec s idx v rest :
  length s = 81 → idx < 81 → v ≠ 0%Z →
  ∃ s', updateConstraints (<[idx := Square v rest]> s) idx v = Ok s'
        ∧ length s' = 81 ∧ s' !! idx = Some (Square v rest)
        ∧ ∀ j sq, j ≠ idx → s !! j = Some sq →
            s' !! j = Some (if decide (j ∈ peers idx) then strike v sq else sq).
Proof.
  intros Hlen Hidx Hv.
  destruct (updateConstraints_spec (<[idx := Square v rest]> s) idx v)
    as (s' & Hup & Hlen' & Hs'); [by rewrite length_insert|done|].
  exists s'. split_and!; [done..| |].
  - rewrite Hs', list_lookup_insert_eq by lia. simpl.
    rewrite decide_True by by apply peers_refl.
    unfold strike. simpl. by rewrite decide_False.
  - intros j sq Hj Hsq. rewrite Hs', list_lookup_insert_ne by done.
    rewrite Hsq. simpl. by case_decide.
Qed.

Lemma strike_val v sq : val (strike v sq) = val sq.
Proof. unfold strike. by case_decide. Qed.

Lemma strike_opts v sq : opts (strike v sq) ⊆ opts sq.
Proof. unfold strike. case_decide; simpl; set_solver. Qed.

Lemma strike_ok v sq : square_ok sq → square_ok (strike v sq).
Proof.
  intros (Hv & Ho & He). unfold strike. case_decide as H0; [|done].
  split_and!; simpl; [done|set_solver|done].
Qed.

Lemma grid_ok_lookup s j sq : grid_ok s → s !! j = Some sq → square_ok sq.
Proof. intros [_ H] Hj. rewrite Forall_lookup in H. eauto. Qed.

Lemma grid_ok_lt s j sq : grid_ok s → s !! j = Some sq → j < 81.
Proof. intros [Hlen _] Hj%lookup_lt_Some. lia. Qed.

Section assigned.
Context (s s' : list square) (idx : nat) (v : Z).
Hypothesis Hok : grid_ok s.
Hypothesis Hidx : idx < 81.
Hypothesis Hv : v ∈ digits.
Hypothesis Has : assigned s idx v s'.

Lemma assigned_other j sq' :
  j ≠ idx → s' !! j = Some sq' →
  ∃ sq, s !! j = Some sq ∧ val sq' = val sq ∧ opts sq' ⊆ opts sq
        ∧ (j ∈ peers idx → val sq = 0%Z → v ∉ opts sq').
Proof using Hok Hidx Hv Has.
  intros Hj Hsq'. destruct Has as (Hlen' & _ & Hoth).
  destruct (lookup_lt_is_Some_2 s j) as [sq Hsq].
  { destruct Hok as [-> _]. apply lookup_lt_Some in Hsq'. lia. }
  exists sq. split; [done|]. rewrite (Hoth j sq Hj Hsq) in Hsq'.
  injection Hsq' as <-. case_decide as Hp.
  - rewrite strike_val. split_and!; [done|apply strike_opts|].
    intros _ H0. unfold strike. rewrite decide_True by done. simpl.
    intros [_ Hn]%elem_of_difference. apply Hn. by apply elem_of_singleton.
  - done.
Qed.

Lemma assigned_grid_ok : grid_ok s'.
Proof using Hok Hidx Hv Has.
  destruct Has as (Hlen' & Hi & Hoth). split; [done|].
  apply Forall_lookup. intros j sq' Hsq'.
  destruct (decide (j = idx)) as [->|Hj].
  - rewrite Hi in Hsq'. injection Hsq' as <-.
    split_and!; simpl; [by right|set_solver|done].
  - destruct (lookup_lt_is_Some_2 s j) as [sq Hsq].
    { destruct Hok as [-> _]. apply lookup_lt_Some in Hsq'. lia. }
    rewrite (Hoth j sq Hj Hsq) in Hsq'. injection Hsq' as <-.
    pose proof (grid_ok_lookup _ _ _ Hok Hsq).
    case_decide; [by apply strike_ok|done].
Qed.

Lemma assigned_pruned : pruned s → pruned s'.
Proof using Hok Hidx Hv Has.
  intros Hpr i j sqi sqj Hi Hj Hp Hij Hne.
  destruct (decide (i = idx)) as [->|Hi'].
  { destruct Has as (_ & Hidx' & _). rewrite Hidx' in Hi.
    injection Hi as <-. simpl. set_solver. }
  destruct (assigned_other i sqi Hi' Hi) as (sqi0 & Hi0 & Hvi & Hoi & Hsi).
  assert (i < 81) as Hi81 by (by eapply grid_ok_lt).
  destruct (decide (j = idx)) as [->|Hj'].
  - destruct Has as (_ & Hidx' & _). rewrite Hidx' in Hj.
    injection Hj as <-. simpl.
    destruct (decide (val sqi0 = 0%Z)) as [H0|H0].
    + apply Hsi; [|done]. by apply peers_sym.
    + pose proof (grid_ok_lookup _ _ _ Hok Hi0) as (_ & _ & He).
      rewrite He in Hoi by done. intros Hin. apply Hoi in Hin.
      by apply not_elem_of_empty in Hin.
  - destruct (assigned_other j sqj Hj' Hj) as (sqj0 & Hj0 & Hvj & _).
    rewrite Hvj in *. intros Hin. apply (Hpr i j sqi0 sqj0); try done.
    by apply Hoi.
Qed.

Lemma assigned_distinct : sound_write s idx v → distinct s → distinct s'.
Proof using Hok Hidx Hv Has.
  intros Hsound Hdi i j sqi sqj Hi Hj Hp Hij Hne.
  assert (v ≠ 0%Z) as Hv0 by (apply elem_of_digits in Hv; lia).
  destruct (decide (i = idx)) as [->|Hi'].
  - destruct Has as (_ & Hidx' & _). rewrite Hidx' in Hi.
    injection Hi as <-. simpl.
    destruct (assigned_other j sqj (not_eq_sym Hij) Hj)
      as (sqj0 & Hj0 & Hvj & _).
    rewrite Hvj in *. apply not_eq_sym. by eapply Hsound.
  - destruct (assigned_other i sqi Hi' Hi) as (sqi0 & Hi0 & Hvi & _).
    assert (i < 81) as Hi81 by (by eapply grid_ok_lt).
    rewrite Hvi. destruct (decide (j = idx)) as [->|Hj'].
    + destruct Has as (_ & Hidx' & _). rewrite Hidx' in Hj.
      injection Hj as <-. simpl.
      destruct (decide (val sqi0 = 0%Z)) as [H0|H0]; [congruence|].
      eapply Hsound; [|done..]. by apply peers_sym.
    + destruct (assigned_other j sqj Hj' Hj) as (sqj0 & Hj0 & Hvj & _).
      rewrite Hvj in *. by eapply Hdi.
Qed.

Lemma assigned_evolves s0 :
  evolves s0 s → (∀ sq0, s0 !! idx = Some sq0 → val sq0 = 0%Z) →
  evolves s0 s'.
Proof using Hok Hidx Hv Has.
  intros [Hlen Hev] Hopen. destruct Has as (Hlen' & Hidx' & _).
  split; [destruct Hok; congruence|].
  intros j sq0 sq' Hsq0 Hsq'. destruct (decide (j = idx)) as [->|Hj].
  - rewrite Hidx' in Hsq'. injection Hsq' as <-. simpl.
    split; [set_solver|]. intros Hne. by specialize (Hopen _ Hsq0).
  - destruct (assigned_other j sq' Hj Hsq') as (sq & Hsq & Hvj & Hoj & _).
    destruct (Hev j sq0 sq Hsq0 Hsq) as [Ho Hvv].
    split; [set_solver|]. rewrite Hvj. done.
Qed.
End assigned.

(** ** Relations between successive grids *)

Lemma evolves_refl s : evolves s s.
Proof. split; [done|]. intros j sq sq' H1 H2. by simplify_eq. Qed.

Lemma evolves_trans s0 s1 s2 : evolves s0 s1 → evolves s1 s2 → evolves s0 s2.
Proof.
  intros [Hl1 H1] [Hl2 H2]. split; [congruence|].
  intros j sq0 sq2 Hsq0 Hsq2.
  destruct (lookup_lt_is_Some_2 s1 j) as [sq1 Hsq1].
  { rewrite Hl1. by eapply lookup_lt_Some. }
  destruct (H1 j sq0 sq1 Hsq0 Hsq1) as [Ho1 Hv1].
  destruct (H2 j sq1 sq2 Hsq1 Hsq2) as [Ho2 Hv2].
  split; [set_solver|]. intros Hne. rewrite Hv2; rewrite Hv1; done.
Qed.

Lemma sum_list_with_le {A : Type} (f : A → nat) (l l' : list A) :
  Forall2 (λ a b, f b ≤ f a) l l' → sum_list_with f l' ≤ sum_list_with f l.
Proof. induction 1; simpl; lia. Qed.

Lemma sum_list_with_lt {A : Type} (f : A → nat) (l l' : list A) i a b :
  Forall2 (λ a b, f b ≤ f a) l l' →
  l !! i = Some a → l' !! i = Some b → f b < f a →
  sum_list_with f l' < sum_list_with f l.
Proof.
  intros H. revert i. induction H as [|x y l l' Hxy Hl IH]; intros i Ha Hb Hlt.
  - done.
  - destruct i as [|i]; simpl in *.
    + simplify_eq. pose proof (sum_list_with_le f l l' Hl). lia.
    + specialize (IH i Ha Hb Hlt). lia.
Qed.

Lemma evolves_Forall2 s s' :
  evolves s s' → Forall2 (λ a b, size (opts b) ≤ size (opts a)) s s'.
Proof.
  intros [Hlen Hev]. apply Forall2_same_length_lookup_2; [done|].
  intros i a b Ha Hb. apply subseteq_size. by apply (Hev i a b).
Qed.

Lemma evolves_options_left s s' :
  evolves s s' → options_left s' ≤ options_left s.
Proof. intros H. by apply sum_list_with_le, evolves_Forall2. Qed.

Lemma evolves_options_lt s s' i sq sq' :
  evolves s s' → s !! i = Some sq → s' !! i = Some sq' →
  size (opts sq') < size (opts sq) → options_left s' < options_left s.
Proof.
  intros H Hi Hi' Hlt.
  by apply (sum_list_with_lt _ s s' i sq sq'); [apply evolves_Forall2|..].
Qed.

Lemma step_inv_refl s : grid_ok s → step_inv s s [].
Proof. intros Hok. split; auto using evolves_refl. Qed.

Lemma step_inv_trans s0 s1 s2 log1 log2 :
  step_inv s0 s1 log1 → step_inv s1 s2 log2 → step_inv s0 s2 (log1 ++ log2).
Proof.
  intros [Hok1 Hev1 Hpr1 Hdi1 Hso1] [Hok2 Hev2 Hpr2 Hdi2 Hso2].
  split; [done|by eapply evolves_trans|auto..].
  intros Hp. apply Forall_app; auto.
Qed.

Lemma prune_step_inv s :
  grid_ok s →
  ∃ s', prune s = Ok s' ∧ step_inv s s' [] ∧ pruned s'
        ∧ (distinct s → distinct s').
Proof.
  intros Hok. destruct (prune_spec s) as (s' & Hpr & Hlen' & Hs'); [apply Hok|].
  exists s'. split; [done|].
  assert (∀ j sq', s' !! j = Some sq' →
            ∃ sq, s !! j = Some sq ∧ pruned_square s j sq sq') as Hback.
  { intros j sq' Hsq'. destruct (lookup_lt_is_Some_2 s j) as [sq Hsq].
    { destruct Hok as [-> _]. apply lookup_lt_Some in Hsq'. lia. }
    destruct (Hs' j sq Hsq) as (sq'' & Hsq'' & Hp). exists sq. by simplify_eq. }
  assert (∀ j sq sq', s !! j = Some sq → s' !! j = Some sq' →
            val sq' = val sq ∧ opts sq' ⊆ opts sq) as Hmono.
  { intros j sq sq' Hsq Hsq'.
    destruct (Hback j sq' Hsq') as (sq0 & Hsq0 & Hv & Hfix & Hopen).
    simplify_eq. split; [done|].
    destruct (decide (val sq = 0%Z)) as [H0|H0].
    - intros v. rewrite (Hopen H0 v). tauto.
    - by rewrite (Hfix H0). }
  assert (pruned s') as Hpruned.
  { intros i j sqi' sqj' Hi Hj Hp Hij Hne.
    destruct (Hback i sqi' Hi) as (sqi & Hsqi & Hvi & Hfix & Hopen).
    destruct (Hback j sqj' Hj) as (sqj & Hsqj & Hvj & _).
    destruct (decide (val sqi = 0%Z)) as [H0|H0].
    - rewrite (Hopen H0). intros (_ & _ & Hu).
      apply (Hu j sqj); [done| |done|]; congruence.
    - rewrite (Hfix H0).
      pose proof (grid_ok_lookup _ _ _ Hok Hsqi) as (_ & _ & He).
      rewrite He by done. apply not_elem_of_empty. }
  assert (distinct s → distinct s') as Hdistinct.
  { intros Hdi i j sqi' sqj' Hi Hj Hp Hij Hne.
    destruct (Hback i sqi' Hi) as (sqi & Hsqi & Hvi & _).
    destruct (Hback j sqj' Hj) as (sqj & Hsqj & Hvj & _).
    rewrite Hvi, Hvj in *. by eapply Hdi. }
  split; [|done]. split.
  - split; [done|]. apply Forall_lookup. intros j sq' Hsq'.
    destruct (Hback j sq' Hsq') as (sq & Hsq & Hp).
    destruct (Hmono j sq sq' Hsq Hsq') as [Hv Ho].
    pose proof (grid_ok_lookup _ _ _ Hok Hsq) as (Hvd & Hod & He).
    split_and!; [by rewrite Hv|set_solver|].
    rewrite Hv. intros Hne. specialize (He Hne). set_solver.
  - split; [destruct Hok; congruence|]. intros j sq sq' Hsq Hsq'.
    destruct (Hmono j sq sq' Hsq Hsq'). auto.
  - done.
  - auto.
  - done.
Qed.

(** ** propagate: squares with one option *)

Lemma assigned_step_inv s s' idx v sq :
  grid_ok s → s !! idx = Some sq → val sq = 0%Z → v ∈ digits →
  (pruned s → sound_write s idx v) →
  assigned s idx v s' →
  step_inv s s' [Event s idx v].
Proof.
  intros Hok Hsq H0 Hv Hsound Has.
  assert (idx < 81) as Hidx by (by eapply grid_ok_lt).
  split.
  - by eapply assigned_grid_ok.
  - eapply assigned_evolves; [done..|apply evolves_refl|].
    intros sq0 ?. by simplify_eq.
  - by eapply assigned_pruned.
  - intros Hpr. eapply assigned_distinct; eauto.
  - intros Hpr. apply Forall_singleton. by apply Hsound.
Qed.

Lemma naked_step s x sq :
  grid_ok s → s !! x = Some sq → size (opts sq) = 1 →
  ∃ v s', set_pop (opts sq) = Ok (v, ∅)
          ∧ updateConstraints (<[x := Square v ∅]> s) x v = Ok s'
          ∧ step_inv s s' [Event s x v]
          ∧ options_left s' < options_left s.
Proof.
  intros Hok Hsq Hsize.
  destruct (set_pop_singleton _ Hsize) as (v & Hopts & Hpop).
  pose proof (grid_ok_lookup _ _ _ Hok Hsq) as (_ & Hd & He).
  assert (x < 81) as Hx by (by eapply grid_ok_lt).
  assert (v ∈ digits) as Hv by set_solver.
  assert (val sq = 0%Z) as H0.
  { destruct (decide (val sq = 0%Z)) as [|Hne]; [done|].
    rewrite (He Hne) in Hsize. by rewrite size_empty in Hsize. }
  destruct (assign_spec s x v ∅) as (s' & Hup & Has);
    [apply Hok|done|apply elem_of_digits in Hv; lia|].
  exists v, s'. split_and!; [done..| |].
  - eapply assigned_step_inv; eauto.
    intros Hpr j sqj Hj Hne Hsqj Hvj Heq.
    apply (Hpr x j sq sqj); try done. rewrite Hopts.
    by apply elem_of_singleton.
  - eapply (evolves_options_lt s s' x sq (Square v ∅)); [|done|apply Has|].
    + eapply assigned_evolves; [done..|apply evolves_refl|].
      intros sq0 ?. by simplify_eq.
    + change (opts (Square v ∅)) with (∅ : gset Z). rewrite size_empty. lia.
Qed.

Lemma naked_singles_spec s log :
  grid_ok s →
  ∃ s' changed log',
    naked_singles s log = Ok (s', changed, log ++ log')
    ∧ step_inv s s' log'
    ∧ (changed = true → options_left s' < options_left s).
Proof.
  intros Hok. unfold naked_singles.
  edestruct (for__invariant (λ (seen : list nat) '(s', changed, log1),
      ∃ log', log1 = log ++ log' ∧ step_inv s s' log'
              ∧ (changed = true → options_left s' < options_left s)))
    as ([[s' changed] log1] & Hfor & log' & -> & HI);
    [| |by rewrite Hfor; exists s', changed, log'].
  - exists []. rewrite app_nil_r. split_and!; [done|by apply step_inv_refl|done].
  - intros seen x post [[s1 ch] log1] Hseq (log' & -> & Hinv & Hch).
    assert (x < 81) as Hx.
    { destruct Hok as [Hlen _]. rewrite Hlen in Hseq.
      assert (x ∈ seq 0 81) as Hin%elem_of_seq; [|lia].
      change (range 0 81) with (seq 0 81) in Hseq.
      rewrite Hseq, elem_of_app, elem_of_cons. tauto. }
    pose proof (si_ok _ _ _ Hinv) as Hok1.
    destruct (lookup_lt_is_Some_2 s1 x) as [sq Hsq];
      [destruct Hok1 as [-> _]; lia|].
    rewrite (getitem_Some _ _ _ Hsq). simpl. case_decide as Hsize.
    + destruct (naked_step s1 x sq Hok1 Hsq Hsize)
        as (v & s2 & -> & Hup & Hstep & Hlt).
      simpl. rewrite Hup. simpl. eexists. split; [done|].
      exists (log' ++ [Event s1 x v]). rewrite app_assoc.
      split_and!; [done|by eapply step_inv_trans|].
      intros _. pose proof (evolves_options_left _ _ (si_evolves _ _ _ Hinv)).
      lia.
    + eexists. split; [done|]. by exists log'.
Qed.

(** ** propagate: options unique in a group *)

Lemma count_square_ok s index sq (L : list Z) (data : gmap Z (nat * nat)) :
  s !! index = Some sq → val sq = 0%Z → (∀ o, o ∈ L → o ∈ opts sq) →
  data_ok s data →
  data_ok s
    (foldl (λ (data : gmap Z (nat * nat)) option,
       match data !! option with
       | Some (n, first) => <[option := (S n, first)]> data
       | None => <[option := (1, index)]> data
       end) data L).
Proof.
  intros Hsq H0. revert data. induction L as [|o L IH]; intros data HL Hd; [done|].
  simpl. apply IH; [intros; apply HL; by right|].
  intros k n t. destruct (data !! o) as [[n' first]|] eqn:Ho.
  - rewrite lookup_insert. case_decide as Hk; [|apply Hd].
    intros [= <- <-]. subst k. by eapply Hd.
  - rewrite lookup_insert. case_decide as Hk; [|apply Hd].
    intros [= <- <-]. subst k. exists sq. split_and!; [done..|].
    apply HL. by left.
Qed.

Lemma count_options_spec s group :
  length s = 81 → (∀ i, i ∈ group → i < 81) →
  ∃ data, count_options s group = Ok data ∧ data_ok s data.
Proof.
  intros Hlen Hgroup. unfold count_options.
  edestruct (for__invariant (λ (_ : list nat) data, data_ok s data))
    as (data & Hfor & Hdata); [| |by exists data].
  - intros k n t Hk. by rewrite lookup_empty in Hk.
  - intros seen x post data -> Hd.
    destruct (lookup_lt_is_Some_2 s x) as [sq Hsq].
    { rewrite Hlen. apply Hgroup. rewrite elem_of_app, elem_of_cons. tauto. }
    rewrite (getitem_Some _ _ _ Hsq). simpl. case_decide as H0.
    + eexists. split; [done|]. apply (count_square_ok s x sq); try done.
      intros o. by rewrite elem_of_set_iter.
    + by eexists.
Qed.

Lemma hidden_singles_group_spec group s log :
  grid_ok s → (∀ i, i ∈ group → i < 81) →
  ∃ s' log',
    hidden_singles_group group (s, log) = Ok (s', log ++ log')
    ∧ step_inv s s' log'.
Proof.
  intros Hok Hgroup. unfold hidden_singles_group. simpl.
  destruct (count_options_spec s group) as (data & -> & Hdata);
    [apply Hok|done|]. simpl.
  edestruct (for__invariant (λ (seen : list Z) '(s', log1),
      ∃ log', log1 = log ++ log' ∧ step_inv s s' log'
        ∧ ∀ j sq', s' !! j = Some sq' → val sq' ≠ 0%Z →
            (∃ sq, s !! j = Some sq ∧ val sq = val sq') ∨ val sq' ∈ seen))
    as ([s' log1] & Hfor & log' & -> & HI & _);
    [| |by rewrite Hfor; exists s', log'].
  - exists []. rewrite app_nil_r.
    split_and!; [done|by apply step_inv_refl|]. intros j sq' Hj _. left. eauto.
  - intros seen k post [s1 log1] Hkeys (log' & -> & Hinv & Hseen).
    assert (k ∉ seen) as Hk.
    { pose proof (NoDup_dict_keys data) as Hnd. rewrite Hkeys in Hnd.
      apply NoDup_app in Hnd as (_ & Hnd & _).
      intros Hin. apply (Hnd k Hin). left. }
    assert (∀ j sq', s1 !! j = Some sq' → val sq' ≠ 0%Z →
              (∃ sq, s !! j = Some sq ∧ val sq = val sq') ∨ val sq' ∈ seen ++ [k])
      as Hseen'.
    { intros j sq' Hj Hne. destruct (Hseen j sq' Hj Hne); [by left|right].
      rewrite elem_of_app. by left. }
    assert (is_Some (data !! k)) as [[n t] Hnt].
    { apply elem_of_dict_keys. rewrite Hkeys, elem_of_app, elem_of_cons. tauto. }
    rewrite Hnt. case_decide as Hn; [|eexists; split; [done|]; by exists log'].
    destruct (Hdata k n t Hnt) as (sqd & Hsqd & H0 & Hkd).
    pose proof (si_ok _ _ _ Hinv) as Hok1.
    assert (t < 81) as Ht by exact (grid_ok_lt _ _ _ Hok Hsqd).
    destruct (lookup_lt_is_Some_2 s1 t) as [sq1 Hsq1];
      [destruct Hok1 as [-> _]; lia|].
    rewrite (getitem_Some _ _ _ Hsq1). simpl.
    assert (k ∈ digits) as Hkdig.
    { pose proof (grid_ok_lookup _ _ _ Hok Hsqd) as (_ & Hd & _). set_solver. }
    destruct (assign_spec s1 t k ∅) as (s2 & Hup & Has);
      [apply Hok1|done|apply elem_of_digits in Hkdig; lia|].
    rewrite Hup. simpl. eexists. split; [done|].
    exists (log' ++ [Event s1 t k]). rewrite app_assoc. split; [done|].
    assert (pruned s → sound_write s1 t k) as Hsound.
    { intros Hpr j sqj Hj Hjt Hsqj Hne.
      destruct (Hseen j sqj Hsqj Hne) as [(sqj0 & Hsqj0 & Hv)|Hin].
      - rewrite <-Hv in *. intros <-. by apply (Hpr t j sqd sqj0).
      - intros <-. done. }
    split.
    + destruct Hinv as [_ Hev Hpr Hdi Hso]. split.
      * by eapply assigned_grid_ok.
      * eapply assigned_evolves; [done..|]. intros sq0 ?. by simplify_eq.
      * intros Hp. eapply assigned_pruned; eauto.
      * intros Hp Hd. eapply assigned_distinct; eauto.
      * intros Hp. apply Forall_app. split; [auto|].
        apply Forall_singleton. by apply Hsound.
    + intros j sq' Hj Hne. destruct (decide (j = t)) as [->|Hjt].
      * destruct Has as (_ & Ht' & _). rewrite Ht' in Hj. injection Hj as <-.
        right. rewrite elem_of_app, list_elem_of_singleton. by right.
      * destruct (assigned_other s1 s2 t k Hok1 Ht Hkdig Has j sq' Hjt Hj)
          as (sq1' & Hsq1' & Hv & _).
        rewrite Hv in *. by apply (Hseen' j sq1').
Qed.

Lemma group_lt (constraint : nat → list nat) i j :
  constraint ∈ [getBox; getRow; getCol] → i ∈ range 0 9 → j ∈ constraint i →
  j < 81.
Proof.
  intros Hc Hi%elem_of_seq. assert (i < 9) as Hi9 by lia.
  rewrite !elem_of_cons, elem_of_nil in Hc. destruct Hc as [->|[->|[->|[]]]].
  - rewrite getBox_members by done. rewrite elem_of_members. tauto.
  - rewrite getRow_members by done. rewrite elem_of_members. tauto.
  - rewrite getCol_members by done. rewrite elem_of_members. tauto.
Qed.

Lemma hidden_singles_spec s log :
  grid_ok s →
  ∃ s' log', hidden_singles (s, log) = Ok (s', log ++ log') ∧ step_inv s s' log'.
Proof.
  intros Hok. unfold hidden_singles.
  edestruct (for__invariant (λ (_ : list (nat → list nat)) '(s', log1),
      ∃ log', log1 = log ++ log' ∧ step_inv s s' log'))
    as ([s' log1] & Hfor & log' & -> & HI);
    [| |by rewrite Hfor; exists s', log'].
  - exists []. rewrite app_nil_r. split; [done|by apply step_inv_refl].
  - intros seen constraint post [s1 log1] Hc (log' & -> & Hinv).
    edestruct (for__invariant (λ (_ : list nat) '(s', log2),
        ∃ log'', log2 = log ++ log'' ∧ step_inv s s' log''))
      as ([s2 log2] & Hfor & log'' & -> & HI);
      [| |by rewrite Hfor; eexists; split; [done|]; exists log''].
    + by exists log'.
    + intros seen' i post' [s2 log2] Hi (log'' & -> & Hinv2).
      destruct (hidden_singles_group_spec (constraint i) s2 (log ++ log''))
        as (s3 & log3 & -> & Hstep); [apply Hinv2| |].
      * intros j Hj. apply (group_lt constraint i); [| |done].
        -- rewrite Hc, elem_of_app, elem_of_cons. tauto.
        -- rewrite Hi, elem_of_app, elem_of_cons. tauto.
      * eexists. split; [done|]. exists (log'' ++ log3).
        rewrite app_assoc. split; [done|]. by eapply step_inv_trans.
Qed.

(** ** propagate: the [while] loop *)

Lemma propagate_loop_spec fuel s log :
  grid_ok s → options_left s < fuel →
  ∃ s' log',
    propagate_loop fuel s log = Ok (s', log ++ log')
    ∧ step_inv s s' log' ∧ pruned s'.
Proof.
  revert s log. induction fuel as [|fuel IH]; intros s log Hok Hfuel; [lia|].
  simpl.
  destruct (naked_singles_spec s log Hok) as (s1 & changed & l1 & -> & H1 & Hlt).
  simpl.
  destruct (prune_step_inv s1) as (s2 & -> & H2 & Hpr2 & _); [apply H1|]. simpl.
  destruct (hidden_singles_spec s2 (log ++ l1)) as (s3 & l3 & -> & H3);
    [apply H2|]. simpl.
  pose proof (step_inv_trans _ _ _ _ _ H1 H2) as H12.
  pose proof (step_inv_trans _ _ _ _ _ H12 H3) as H13.
  rewrite app_nil_r in H13.
  pose proof (si_pruned _ _ _ H3 Hpr2) as Hpr3.
  destruct changed.
  - pose proof (evolves_options_left _ _ (si_evolves _ _ _ H2)).
    pose proof (evolves_options_left _ _ (si_evolves _ _ _ H3)).
    specialize (Hlt eq_refl).
    destruct (IH s3 ((log ++ l1) ++ l3)) as (s4 & l4 & -> & H4 & Hpr4);
      [apply H3|lia|].
    exists s4, ((l1 ++ l3) ++ l4). rewrite !app_assoc.
    split_and!; [done| |done]. by eapply step_inv_trans.
  - exists s3, (l1 ++ l3). rewrite app_assoc. done.
Qed.

Lemma propagate_log_spec s :
  grid_ok s →
  ∃ s' log, propagate_log s = Ok (s', log) ∧ step_inv s s' log ∧ pruned s'.
Proof.
  intros Hok. unfold propagate_log.
  destruct (propagate_loop_spec (S (options_left s)) s [] Hok) as (s' & log & H);
    [lia|].
  by exists s', log.
Qed.

Lemma propagate_spec s :
  grid_ok s →
  ∃ s' log, propagate s = Ok s' ∧ step_inv s s' log ∧ pruned s'.
Proof.
  intros Hok. destruct (propagate_log_spec s Hok) as (s' & log & Hp & H).
  exists s', log. unfold propagate. by rewrite Hp.
Qed.

(** ** Sorting *)

Section sorted_by.
Context {A : Type} (key : A → nat).

Lemma insert_by_perm x l : insert_by key x l ≡ₚ x :: l.
Proof.
  induction l as [|y l IH]; simpl; [done|]. case_decide; [done|].
  rewrite IH. apply Permutation_swap.
Qed.

Lemma sorted_by_perm l : sorted_by key l ≡ₚ l.
Proof.
  induction l as [|x l IH]; simpl; [done|].
  rewrite insert_by_perm. by rewrite IH.
Qed.

Lemma key_then_le (R : relation A) x y : key_then key R x y → key x ≤ key y.
Proof. intros [?|[? _]]; lia. Qed.

Lemma insert_by_sorted (R : relation A) x l :
  Forall (R x) l → StronglySorted (key_then key R) l →
  StronglySorted (key_then key R) (insert_by key x l).
Proof.
  induction l as [|y l IH]; intros HR Hl; simpl.
  - repeat constructor.
  - apply Forall_cons in HR as [HRy HRl].
    apply StronglySorted_cons in Hl as [Hyl Hl].
    case_decide as Hxy.
    + apply StronglySorted_cons. split; [|by apply StronglySorted_cons].
      apply Forall_cons. split.
      * destruct (decide (key x = key y)); [right|left]; [done|lia].
      * rewrite Forall_forall in Hyl, HRl |- *. intros z Hz.
        pose proof (key_then_le R y z (Hyl z Hz)).
        destruct (decide (key x = key z)); [right|left]; [auto|lia].
    + apply StronglySorted_cons. split; [|by apply IH].
      rewrite insert_by_perm. apply Forall_cons. split; [|done].
      left. lia.
Qed.

(** The sort is stable: elements with equal keys stay in input order. *)
Lemma sorted_by_stable (R : relation A) l :
  StronglySorted R l → StronglySorted (key_then key R) (sorted_by key l).
Proof.
  induction l as [|x l IH]; intros Hl; simpl; [constructor|].
  apply StronglySorted_cons in Hl as [Hx Hl].
  apply insert_by_sorted; [|by apply IH]. by rewrite sorted_by_perm.
Qed.
End sorted_by.

Lemma StronglySorted_fmap_elem_of {A B : Type} (R : relation A) (R' : relation B)
    (f : A → B) (l : list A) :
  (∀ x y, x ∈ l → y ∈ l → R x y → R' (f x) (f y)) →
  StronglySorted R l → StronglySorted R' (f <$> l).
Proof.
  induction l as [|x l IH]; intros Hmono Hl; simpl; [constructor|].
  apply StronglySorted_cons in Hl as [Hx Hl]. apply StronglySorted_cons. split.
  - apply Forall_fmap. rewrite Forall_forall in Hx |- *. intros y Hy. simpl.
    apply Hmono; [by left|by right|auto].
  - apply IH; [|done]. intros y z Hy Hz. apply Hmono; by right.
Qed.

Lemma zip_seq_sorted (s : list square) k :
  StronglySorted (λ a b : nat * square, a.1 < b.1) (zip (seq k (length s)) s).
Proof.
  revert k. induction s as [|sq s IH]; intros k; simpl; [constructor|].
  apply StronglySorted_cons. split; [|apply IH].
  apply Forall_forall. intros [j sqj] Hj. simpl.
  apply elem_of_zip_l in Hj. apply elem_of_seq in Hj. lia.
Qed.

Lemma elem_of_zip_seq (s : list square) i sq :
  (i, sq) ∈ zip (seq 0 (length s)) s ↔ s !! i = Some sq.
Proof.
  rewrite list_elem_of_lookup. split.
  - intros [n Hn]. apply lookup_zip_with_Some in Hn as (a & b & [= <- <-] & Ha & Hb).
    apply lookup_seq in Ha as [-> _]. done.
  - intros Hi. exists i. apply lookup_zip_with_Some. exists i, sq.
    split_and!; [done| |done]. apply lookup_seq. split; [done|].
    by eapply lookup_lt_Some.
Qed.

Lemma sortedIndices_perm s : sortedIndices s ≡ₚ seq 0 (length s).
Proof.
  unfold sortedIndices. rewrite sorted_by_perm.
  change (range 0 (length s)) with (seq 0 (length s - 0)).
  rewrite Nat.sub_0_r. rewrite fst_zip; [done|]. by rewrite length_seq.
Qed.

Lemma sortedIndices_sorted s : StronglySorted (before s) (sortedIndices s).
Proof.
  unfold sortedIndices.
  change (range 0 (length s)) with (seq 0 (length s - 0)). rewrite Nat.sub_0_r.
  eapply StronglySorted_fmap_elem_of; [|apply sorted_by_stable, zip_seq_sorted].
  intros [i sqi] [j sqj] Hi Hj. rewrite sorted_by_perm in Hi, Hj.
  apply elem_of_zip_seq in Hi, Hj. unfold before, key_then, n_options. simpl.
  by rewrite Hi, Hj.
Qed.

(** ** The frequency table *)

Lemma bump_bump o a b : bump (bump o a) b = bump o (a + b).
Proof. destruct a, b; simpl; rewrite ?Nat.add_0_r; try done. f_equal. lia. Qed.

Lemma count_square_frequency (L : list Z) (frequency : gmap Z nat) v :
  NoDup L →
  foldl (λ (frequency : gmap Z nat) p,
    match frequency !! p with
    | Some n => <[p := S n]> frequency
    | None => <[p := 1]> frequency
    end) frequency L !! v
  = bump (frequency !! v) (if decide (v ∈ L) then 1 else 0).
Proof.
  revert frequency. induction L as [|p L IH]; intros frequency Hnd; simpl.
  - done.
  - apply NoDup_cons in Hnd as [Hp Hnd]. rewrite IH by done.
    destruct (decide (v = p)) as [->|Hvp].
    + rewrite decide_False by done. rewrite decide_True by by left. simpl.
      destruct (frequency !! p) as [n|]; rewrite lookup_insert_eq; simpl;
        f_equal; lia.
    + assert (v ∈ p :: L ↔ v ∈ L) as Hiff by (rewrite elem_of_cons; tauto).
      assert ((match frequency !! p with
               | Some n => <[p := S n]> frequency
               | None => <[p := 1]> frequency
               end) !! v = frequency !! v) as ->.
      { destruct (frequency !! p); by rewrite lookup_insert_ne. }
      repeat case_decide; tauto.
Qed.

Lemma count_frequency_from (l : list square) (frequency : gmap Z nat) v :
  foldl (λ (frequency : gmap Z nat) s,
    if decide (val s = 0%Z) then
      foldl (λ (frequency : gmap Z nat) p,
        match frequency !! p with
        | Some n => <[p := S n]> frequency
        | None => <[p := 1]> frequency
        end) frequency (set_iter (opts s))
    else frequency) frequency l !! v
  = bump (frequency !! v) (admitting v l).
Proof.
  revert frequency. induction l as [|sq l IH]; intros frequency; simpl; [done|].
  rewrite IH. unfold admitting. case_decide as H0.
  - rewrite count_square_frequency by apply NoDup_set_iter.
    rewrite bump_bump. f_equal. case_decide as Hv.
    + rewrite filter_cons_True; [done|]. by rewrite <-elem_of_set_iter.
    + rewrite filter_cons_False; [done|]. rewrite <-elem_of_set_iter. tauto.
  - rewrite filter_cons_False by tauto. done.
Qed.

Lemma count_frequency_lookup s v :
  count_frequency s !! v = bump None (admitting v s).
Proof. unfold count_frequency. by rewrite count_frequency_from, lookup_empty. Qed.

Lemma admitting_others s i sq v :
  s !! i = Some sq → val sq = 0%Z → v ∈ opts sq →
  admitting v s = S (others_admitting s i v).
Proof.
  intros Hi H0 Hv. unfold others_admitting, admitting.
  rewrite delete_take_drop. rewrite <-(take_drop_middle s i sq Hi) at 1.
  rewrite !filter_app, !length_app, filter_cons_True by done. simpl. lia.
Qed.

(** Every option of an open square has an entry in the table, which counts
    the square itself. *)
Lemma count_frequency_open s i sq v :
  s !! i = Some sq → val sq = 0%Z → v ∈ opts sq →
  count_frequency s !! v = Some (S (others_admitting s i v)).
Proof.
  intros Hi H0 Hv. rewrite count_frequency_lookup.
  by rewrite (admitting_others s i sq v).
Qed.

Lemma for__keyed (frequency : gmap Z nat) (L : list Z) (keyed : list (nat * Z)) :
  (∀ x, x ∈ L → is_Some (frequency !! x)) →
  for_ L (λ keyed x,
    match frequency !! x with
    | Some n => Ok (keyed ++ [(n, x)])
    | None => Raise KeyError
    end) keyed
  = Ok (keyed ++ ((λ x, (default 0 (frequency !! x), x)) <$> L)).
Proof.
  revert keyed. induction L as [|x L IH]; intros keyed HL; simpl.
  - by rewrite app_nil_r.
  - destruct (HL x) as [n Hn]; [by left|]. rewrite Hn. simpl.
    rewrite IH by (intros; apply HL; by right). by rewrite <-app_assoc.
Qed.

Lemma sorted_by_frequency_Ok frequency o :
  (∀ x, x ∈ o → is_Some (frequency !! x)) →
  sorted_by_frequency frequency o = Ok (values_in_order frequency o).
Proof.
  intros Ho. unfold sorted_by_frequency. rewrite for__keyed; [done|].
  intros x. rewrite elem_of_set_iter. apply Ho.
Qed.

Lemma values_in_order_perm frequency o :
  values_in_order frequency o ≡ₚ set_iter o.
Proof.
  unfold values_in_order. rewrite sorted_by_perm.
  rewrite <-list_fmap_compose. by rewrite list_fmap_id.
Qed.

Lemma elem_of_values_in_order frequency o v :
  v ∈ values_in_order frequency o ↔ v ∈ o.
Proof. rewrite values_in_order_perm. apply elem_of_set_iter. Qed.


(** ** The search loops as a list of guesses *)

Lemma try_values_first rec s i values :
  try_values rec s i values = first_solved rec s ((λ v, (i, v)) <$> values).
Proof.
  induction values as [|v values IH]; simpl; [done|].
  destruct (rec _) as [[soln|]| |]; simpl; try done.
  by destruct (truthy soln && isSolved soln).
Qed.

Lemma first_solved_app rec s gs1 gs2 :
  first_solved rec s (gs1 ++ gs2) =
  found ← first_solved rec s gs1;
  match found with
  | Some soln => Ok (Some soln)
  | None => first_solved rec s gs2
  end.
Proof.
  induction gs1 as [|[i v] gs1 IH]; simpl; [done|].
  destruct (rec _) as [soln| |]; simpl; try done.
  destruct (solved_by soln) eqn:Hs; [|done].
  destruct soln; simpl; [done|]. by simpl in Hs.
Qed.

Lemma try_squares_first rec s frequency indices :
  (∀ i, i ∈ indices → i < length s) →
  (∀ i sq v, s !! i = Some sq → val sq = 0%Z → v ∈ opts sq →
             is_Some (frequency !! v)) →
  try_squares rec s frequency indices =
  first_solved rec s (indices ≫= square_guesses s frequency).
Proof.
  intros Hidx Hfreq. induction indices as [|i indices IH]; simpl; [done|].
  destruct (lookup_lt_is_Some_2 s i) as [sq Hsq]; [apply Hidx; by left|].
  rewrite (getitem_Some _ _ _ Hsq). simpl.
  rewrite first_solved_app.
  assert (square_guesses s frequency i =
          if decide (val sq = 0%Z)
          then (λ v, (i, v)) <$> values_in_order frequency (opts sq)
          else []) as -> by (unfold square_guesses; by rewrite Hsq).
  rewrite IH by (intros; apply Hidx; by right).
  case_decide as H0; [|done].
  rewrite sorted_by_frequency_Ok by eauto. simpl.
  by rewrite try_values_first.
Qed.

Lemma first_solved_spec rec s gs (Q : nat → Z → list Z → Prop) :
  (∀ i v, (i, v) ∈ gs →
     ∃ r, rec (<[i := v]> (val <$> s)) = Ok r ∧ ∀ l, r = Some l → Q i v l) →
  ∃ r, first_solved rec s gs = Ok r
       ∧ ∀ l, r = Some l → isSolved l = true ∧ ∃ i v, (i, v) ∈ gs ∧ Q i v l.
Proof.
  induction gs as [|[i v] gs IH]; intros Hrec; simpl.
  - by exists None.
  - destruct (Hrec i v) as (r & -> & HQ); [by left|]. simpl.
    destruct (solved_by r) eqn:Hsolved.
    + exists r. split; [done|]. intros l ->. simpl in Hsolved.
      apply andb_prop in Hsolved as [_ Hsolved]. split; [done|].
      exists i, v. split; [by left|auto].
    + destruct IH as (r' & -> & HQ').
      { intros j w Hjw. apply Hrec. by right. }
      exists r'. split; [done|]. intros l Hl.
      destruct (HQ' l Hl) as (Hs & j & w & Hjw & Hq).
      split; [done|]. exists j, w. split; [by right|done].
Qed.

Lemma elem_of_guesses s i v :
  (i, v) ∈ guesses s ↔ ∃ sq, s !! i = Some sq ∧ val sq = 0%Z ∧ v ∈ opts sq.
Proof.
  unfold guesses. rewrite list_elem_of_bind. split.
  - intros (j & Hin & _). unfold square_guesses in Hin.
    destruct (s !! j) as [sq|] eqn:Hsq; [|by apply elem_of_nil in Hin].
    case_decide as H0; [|by apply elem_of_nil in Hin].
    apply list_elem_of_fmap in Hin as (w & [= -> ->] & Hw).
    apply elem_of_values_in_order in Hw. eauto.
  - intros (sq & Hsq & H0 & Hv). exists i. split.
    + unfold square_guesses. rewrite Hsq, decide_True by done.
      apply list_elem_of_fmap. exists v. split; [done|].
      by apply elem_of_values_in_order.
    + rewrite sortedIndices_perm. apply elem_of_seq.
      apply lookup_lt_Some in Hsq. lia.
Qed.

Lemma try_squares_guesses rec s :
  try_squares rec s (count_frequency s) (sortedIndices s) =
  first_solved rec s (guesses s).
Proof.
  apply try_squares_first.
  - intros i. rewrite sortedIndices_perm, elem_of_seq. lia.
  - intros i sq v Hsq H0 Hv. rewrite (count_frequency_open s i sq v); done.
Qed.

(** ** solve *)

Lemma mkGrid_val grid : val <$> mkGrid grid = grid.
Proof.
  unfold mkGrid. rewrite <-list_fmap_compose. apply list_fmap_id.
Qed.

Lemma mkGrid_lookup grid i sq :
  mkGrid grid !! i = Some sq →
  grid !! i = Some (val sq)
  ∧ opts sq = if decide (val sq = 0%Z) then digits else ∅.
Proof.
  unfold mkGrid. rewrite list_lookup_fmap.
  destruct (grid !! i) as [v|]; simpl; [|done]. by intros [= <-].
Qed.

Lemma mkGrid_ok grid : input_ok grid → grid_ok (mkGrid grid).
Proof.
  intros [Hlen Hall]. split; [by unfold mkGrid; rewrite length_fmap|].
  apply Forall_fmap. eapply Forall_impl; [exact Hall|]. intros v Hv.
  simpl in Hv. split_and!; simpl.
  - rewrite elem_of_digits. lia.
  - case_decide; set_solver.
  - intros Hne. by rewrite decide_False.
Qed.

Lemma mkGrid_distinct grid : no_conflict grid → distinct (mkGrid grid).
Proof.
  intros Hnc i j sqi sqj [Hi _]%mkGrid_lookup [Hj _]%mkGrid_lookup Hp Hij Hne.
  by eapply Hnc.
Qed.

Lemma distinct_no_conflict s : distinct s → no_conflict (val <$> s).
Proof.
  intros Hdi i j vi vj Hi Hj Hp Hij Hne. rewrite list_lookup_fmap in Hi, Hj.
  destruct (s !! i) as [sqi|] eqn:Hsi; [|done].
  destruct (s !! j) as [sqj|] eqn:Hsj; [|done].
  simpl in *. simplify_eq. by eapply Hdi.
Qed.

Lemma grid_ok_input s : grid_ok s → input_ok (val <$> s).
Proof.
  intros [Hlen Hall]. split; [by rewrite length_fmap|].
  apply Forall_fmap. eapply Forall_impl; [exact Hall|].
  intros sq (Hv & _). simpl. rewrite elem_of_digits in Hv. lia.
Qed.

Lemma zeros_le (l l' : list Z) :
  Forall2 (λ a b, b = 0%Z → a = 0%Z) l l' → zeros l' ≤ zeros l.
Proof.
  unfold zeros. induction 1 as [|a b l l' Hab Hl IH]; [done|].
  destruct (decide (b = 0%Z)) as [Hb|Hb].
  - rewrite !filter_cons_True by auto. simpl. lia.
  - rewrite (filter_cons_False _ b) by done.
    rewrite filter_cons. case_decide; simpl; lia.
Qed.

Lemma zeros_insert (l : list Z) i v :
  l !! i = Some 0%Z → v ≠ 0%Z → S (zeros (<[i := v]> l)) = zeros l.
Proof.
  intros Hi Hv. unfold zeros.
  rewrite insert_take_drop by (by eapply lookup_lt_Some).
  rewrite <-(take_drop_middle l i 0%Z Hi) at 3.
  rewrite !filter_app, !length_app.
  rewrite filter_cons_False by done. rewrite filter_cons_True by done.
  simpl. lia.
Qed.

Lemma zeros_length (l : list Z) : zeros l ≤ length l.
Proof. apply length_filter. Qed.

Lemma evolves_zeros s s' : evolves s s' → zeros (val <$> s') ≤ zeros (val <$> s).
Proof.
  intros [Hlen Hev]. apply zeros_le, Forall2_fmap.
  apply Forall2_same_length_lookup_2; [done|].
  intros i a b Ha Hb H0. destruct (Hev i a b Ha Hb) as [_ Hv].
  destruct (decide (val a = 0%Z)); [done|]. rewrite <-Hv; done.
Qed.

Lemma propagated_spec grid :
  input_ok grid →
  ∃ s, propagated grid = Ok s ∧ grid_ok s ∧ pruned s
       ∧ evolves (mkGrid grid) s ∧ (no_conflict grid → distinct s).
Proof.
  intros Hin. pose proof (mkGrid_ok grid Hin) as Hok. unfold propagated.
  destruct (prune_step_inv _ Hok) as (s1 & -> & H1 & Hpr1 & Hdi1). simpl.
  pose proof (si_ok _ _ _ H1) as Hok1.
  destruct (lookup_lt_is_Some_2 s1 0) as [sq0 Hsq0];
    [destruct Hok1 as [-> _]; lia|].
  unfold reprGrid. rewrite (getitem_Some _ _ _ Hsq0). simpl.
  destruct (propagate_spec s1 Hok1) as (s2 & log & -> & H2 & Hpr2).
  exists s2. split_and!; [done|apply H2|done| |].
  - eapply evolves_trans; [apply H1|apply H2].
  - intros Hnc. apply (si_distinct _ _ _ H2 Hpr1), Hdi1.
    by apply mkGrid_distinct.
Qed.

(** The body of [solve] with its two loops read as a list of guesses. *)
Lemma solve_fuel_unfold fuel grid :
  solve_fuel (S fuel) grid =
  sudoku ← propagated grid;
  if invalid_state sudoku then Ok None
  else found ← first_solved (solve_fuel fuel) sudoku (guesses sudoku);
       Ok (Some (default (val <$> sudoku) found)).
Proof.
  simpl. unfold propagated.
  destruct (prune (mkGrid grid)) as [s1| |]; simpl; [|done..].
  destruct (reprGrid s1); simpl; [|done..].
  destruct (propagate s1) as [s2| |]; simpl; [|done..].
  rewrite try_squares_guesses.
  destruct (invalid_state s2); [done|].
  by destruct (first_solved _ _ _) as [[soln|]| |].
Qed.

Lemma branch_spec s i sq v :
  grid_ok s → pruned s → s !! i = Some sq → val sq = 0%Z → v ∈ opts sq →
  input_ok (<[i := v]> (val <$> s))
  ∧ S (zeros (<[i := v]> (val <$> s))) = zeros (val <$> s)
  ∧ keeps_givens (val <$> s) (<[i := v]> (val <$> s))
  ∧ (distinct s → no_conflict (<[i := v]> (val <$> s))).
Proof.
  intros Hok Hpr Hsq H0 Hv.
  pose proof (grid_ok_lookup _ _ _ Hok Hsq) as (_ & Hd & _).
  assert (v ∈ digits) as Hvd by set_solver.
  assert ((1 ≤ v ≤ 9)%Z) as Hv19 by (by apply elem_of_digits).
  assert ((val <$> s) !! i = Some 0%Z) as Hi
    by (by rewrite list_lookup_fmap, Hsq; simpl; rewrite H0).
  destruct (grid_ok_input s Hok) as [Hlen Hall].
  split_and!.
  - split; [by rewrite length_insert|].
    apply Forall_insert; [done|lia].
  - apply zeros_insert; [done|lia].
  - intros j w Hj Hw. rewrite list_lookup_insert_ne; [done|].
    intros <-. congruence.
  - intros Hdi a b va vb Ha Hb Hp Hab Hne.
    assert (i < length (val <$> s)) as Hilt by (by eapply lookup_lt_Some).
    destruct (decide (a = i)) as [->|Hai]; destruct (decide (b = i)) as [->|Hbi];
      try done.
    + rewrite list_lookup_insert_eq in Ha by done.
      rewrite list_lookup_insert_ne in Hb by done. simplify_eq.
      rewrite list_lookup_fmap in Hb.
      destruct (s !! b) as [sqb|] eqn:Hsb; [|done]. simpl in *. simplify_eq.
      intros ->. by apply (Hpr i b sq sqb).
    + rewrite list_lookup_insert_eq in Hb by done.
      rewrite list_lookup_insert_ne in Ha by done. simplify_eq.
      rewrite list_lookup_fmap in Ha.
      destruct (s !! a) as [sqa|] eqn:Hsa; [|done]. simpl in *. simplify_eq.
      intros Heq. destruct (decide (val sqa = 0%Z)) as [Ha0|Ha0]; [lia|].
      apply (Hpr i a sq sqa); try done; [|by rewrite Heq].
      apply peers_sym; [|done]. by eapply grid_ok_lt.
    + rewrite list_lookup_insert_ne in Ha, Hb by done.
      by apply (distinct_no_conflict s Hdi a b).
Qed.

Lemma evolves_keeps_givens grid s :
  evolves (mkGrid grid) s → keeps_givens grid (val <$> s).
Proof.
  intros [Hlen Hev] i v Hi Hv.
  destruct (lookup_lt_is_Some_2 s i) as [sq Hsq].
  { rewrite Hlen. unfold mkGrid. rewrite length_fmap.
    by eapply lookup_lt_Some. }
  destruct (lookup_lt_is_Some_2 (mkGrid grid) i) as [sq0 Hsq0].
  { unfold mkGrid. rewrite length_fmap. by eapply lookup_lt_Some. }
  destruct (mkGrid_lookup _ _ _ Hsq0) as [Hg _].
  destruct (Hev i sq0 sq Hsq0 Hsq) as [_ Hval].
  rewrite list_lookup_fmap, Hsq. simpl. simplify_eq. by rewrite Hval.
Qed.

Lemma solve_fuel_spec fuel grid :
  input_ok grid → zeros grid < fuel →
  ∃ s r, propagated grid = Ok s ∧ solve_fuel fuel grid = Ok r
         ∧ outcome grid s r.
Proof.
  revert grid. induction fuel as [|fuel IH]; intros grid Hin Hfuel; [lia|].
  destruct (propagated_spec grid Hin) as (s & Hs & Hok & Hpr & Hev & Hdi).
  exists s. rewrite solve_fuel_unfold, Hs. simpl.
  destruct (invalid_state s) eqn:Hinv; [by exists None|].
  pose proof (evolves_zeros _ _ Hev) as Hz. rewrite mkGrid_val in Hz.
  pose proof (evolves_keeps_givens _ _ Hev) as Hkeep.
  destruct (first_solved_spec (solve_fuel fuel) s (guesses s)
    (λ i v l, input_ok l ∧ keeps_givens (<[i := v]> (val <$> s)) l
              ∧ (no_conflict (<[i := v]> (val <$> s)) → no_conflict l)))
    as (found & -> & Hfound).
  { intros i v (sq & Hsq & H0 & Hv)%elem_of_guesses.
    destruct (branch_spec s i sq v Hok Hpr Hsq H0 Hv) as (Hbin & Hbz & _).
    destruct (IH (<[i := v]> (val <$> s)) Hbin) as (sb & rb & _ & -> & Hout);
      [lia|].
    exists rb. split; [done|]. intros l ->. simpl in Hout. tauto. }
  simpl. eexists. split; [done|]. split; [done|].
  destruct found as [l|]; simpl.
  - destruct (Hfound l eq_refl)
      as (Hsolved & i & v & (sq & Hsq & H0 & Hv)%elem_of_guesses & Hl & Hk & Hnc).
    destruct (branch_spec s i sq v Hok Hpr Hsq H0 Hv) as (_ & _ & Hbk & Hbnc).
    split; [done|]. split; [done|]. split; [|split; [auto|by left]].
    intros j w Hj Hw. apply Hk; [|done]. apply Hbk; [|done]. by apply Hkeep.
  - split; [done|]. split; [by apply grid_ok_input|].
    split; [done|]. split; [|by right].
    intros Hnc. by apply distinct_no_conflict, Hdi.
Qed.

(** ** Solved grids *)

Lemma isSolved_Forall l : isSolved l = true ↔ Forall (λ v, v ≠ 0%Z) l.
Proof.
  unfold isSolved. induction l as [|v l IH]; simpl.
  - split; [constructor|done].
  - rewrite Forall_cons, <-IH, andb_true_iff, negb_true_iff.
    by rewrite bool_decide_eq_false.
Qed.

Lemma groups_facts :
  Forall (λ group,
    NoDup group ∧ length group = 9
    ∧ Forall (λ i, i < 81 ∧ Forall (λ j, j ∈ peers i) group) group) groups.
Proof. apply (bool_decide_unpack _). by vm_compute. Qed.

Lemma digits_once : Forall (λ v, once v (set_iter digits)) (set_iter digits).
Proof. apply (bool_decide_unpack _). by vm_compute. Qed.

Lemma solved_valid l :
  input_ok l → isSolved l = true → no_conflict l → valid_grid l.
Proof.
  intros [Hlen Hall] Hsolved%isSolved_Forall Hnc. unfold valid_grid.
  eapply Forall_impl; [apply groups_facts|].
  intros group (Hnd & Hlg & Hgroup). rewrite Forall_forall in Hgroup.
  assert (∀ i, i ∈ group → ∃ v, l !! i = Some v ∧ (1 ≤ v ≤ 9)%Z) as Hval.
  { intros i [Hi _]%Hgroup.
    destruct (lookup_lt_is_Some_2 l i) as [v Hv]; [lia|]. exists v.
    split; [done|]. rewrite Forall_forall in Hall, Hsolved.
    apply list_elem_of_lookup_2 in Hv.
    specialize (Hall v Hv). specialize (Hsolved v Hv). simpl in *. lia. }
  assert (group_values l group ≡ₚ set_iter digits) as Hperm.
  { apply submseteq_length_Permutation.
    - apply NoDup_submseteq.
      + apply NoDup_fmap_2_strong; [|done]. intros i j Hi Hj Heq.
        destruct (decide (i = j)) as [|Hij]; [done|exfalso].
        destruct (Hval i Hi) as (vi & Hvi & Hi19).
        destruct (Hval j Hj) as (vj & Hvj & Hj19).
        rewrite Hvi, Hvj in Heq. simpl in Heq. subst vj.
        destruct (Hgroup i Hi) as [_ Hpeers]. rewrite Forall_forall in Hpeers.
        apply (Hnc i j vi vi); auto. lia.
      + intros x (i & -> & Hi)%list_elem_of_fmap.
        destruct (Hval i Hi) as (v & -> & Hv19). simpl.
        by apply elem_of_set_iter, elem_of_digits.
    - unfold group_values. rewrite length_fmap, Hlg. by vm_compute. }
  eapply Forall_impl; [apply digits_once|].
  intros v Hv. unfold once in *. by rewrite Hperm.
Qed.

(** ** Checkers *)

(** A closed decidable proposition, settled by evaluating its decision. *)
Ltac by_evaluation := apply (bool_decide_unpack _); vm_compute; exact I.

Lemma no_conflictb_spec grid : no_conflictb grid = true → no_conflict grid.
Proof.
  unfold no_conflictb. rewrite forallb_forall. intros H i j vi vj Hi Hj Hp Hij Hne.
  assert (In i (seq 0 (length grid))) as Hin.
  { apply list_elem_of_In, elem_of_seq. apply lookup_lt_Some in Hi. lia. }
  specialize (H i Hin). rewrite forallb_forall in H.
  apply list_elem_of_In in Hp. specialize (H j Hp).
  unfold cell in H. rewrite Hi, Hj in H. simpl in H.
  rewrite !orb_true_iff, !bool_decide_eq_true in H. tauto.
Qed.

Lemma prunedb_spec sudoku : prunedb sudoku = true → pruned sudoku.
Proof.
  unfold prunedb. rewrite forallb_forall.
  intros H i j sqi sqj Hi Hj Hp Hij Hne.
  assert (In i (seq 0 (length sudoku))) as Hin.
  { apply list_elem_of_In, elem_of_seq. apply lookup_lt_Some in Hi. lia. }
  specialize (H i Hin). rewrite forallb_forall in H.
  apply list_elem_of_In in Hp. specialize (H j Hp).
  rewrite Hi, Hj in H.
  rewrite !orb_true_iff, !bool_decide_eq_true in H. tauto.
Qed.


(** ** Fuel *)

Lemma first_solved_ext rec1 rec2 s gs :
  (∀ i v, (i, v) ∈ gs →
     rec1 (<[i := v]> (val <$> s)) = rec2 (<[i := v]> (val <$> s))) →
  first_solved rec1 s gs = first_solved rec2 s gs.
Proof.
  induction gs as [|[i v] gs IH]; intros Hext; simpl; [done|].
  rewrite (Hext i v) by by left.
  destruct (rec2 _) as [soln| |]; simpl; [|done..].
  destruct (solved_by soln); [done|]. apply IH. intros j w Hjw.
  apply Hext. by right.
Qed.

(** Any fuel above the number of open squares gives the same result. *)
Lemma solve_fuel_enough fuel1 fuel2 grid :
  input_ok grid → zeros grid < fuel1 → zeros grid < fuel2 →
  solve_fuel fuel1 grid = solve_fuel fuel2 grid.
Proof.
  revert fuel2 grid. induction fuel1 as [|fuel1 IH];
    intros [|fuel2] grid Hin H1 H2; try lia.
  rewrite !solve_fuel_unfold.
  destruct (propagated_spec grid Hin) as (s & -> & Hok & Hpr & Hev & _). simpl.
  destruct (invalid_state s); [done|].
  pose proof (evolves_zeros _ _ Hev) as Hz. rewrite mkGrid_val in Hz.
  rewrite (first_solved_ext (solve_fuel fuel1) (solve_fuel fuel2)); [done|].
  intros i v (sq & Hsq & H0 & Hv)%elem_of_guesses.
  destruct (branch_spec s i sq v Hok Hpr Hsq H0 Hv) as (Hbin & Hbz & _).
  apply IH; [done|lia..].
Qed.

Lemma solve_spec grid :
  input_ok grid →
  ∃ s r, propagated grid = Ok s ∧ solve grid = Ok r ∧ outcome grid s r.
Proof.
  intros Hin. apply solve_fuel_spec; [done|].
  pose proof (zeros_length grid). lia.
Qed.

(** ** The order of the guesses *)

Lemma square_guesses_fst s frequency i g :
  g ∈ square_guesses s frequency i → g.1 = i.
Proof.
  unfold square_guesses. destruct (s !! i) as [sq|]; [|by intros ?%elem_of_nil].
  case_decide; [|by intros ?%elem_of_nil].
  by intros (v & -> & _)%list_elem_of_fmap.
Qed.

Lemma guesses_sorted s :
  StronglySorted (λ a b : nat * Z, a.1 = b.1 ∨ before s a.1 b.1) (guesses s).
Proof.
  unfold guesses. pose proof (sortedIndices_sorted s) as Hsorted.
  induction Hsorted as [|i l Hl IH Hi]; [constructor|].
  change ((i :: l) ≫= square_guesses s (count_frequency s))
    with (square_guesses s (count_frequency s) i
          ++ (l ≫= square_guesses s (count_frequency s))).
  apply StronglySorted_app; split_and!; [| |done].
  - intros a b Ha%square_guesses_fst (j & Hb%square_guesses_fst & Hj)%list_elem_of_bind.
    right. rewrite Ha, Hb. rewrite Forall_forall in Hi. auto.
  - assert (Forall (λ g : nat * Z, g.1 = i)
              (square_guesses s (count_frequency s) i)) as Hall.
    { apply Forall_forall. intros g. apply square_guesses_fst. }
    induction Hall as [|g gs Hg Hgs IHgs]; constructor; [done|].
    eapply Forall_impl; [exact Hgs|]. intros g' Hg'. left. congruence.
Qed.

(** ** A digit twice in a row *)

Lemma twice_not_once (f : nat → Z) (group : list nat) i j v :
  i ∈ group → j ∈ group → i ≠ j → f i = v → f j = v →
  ¬ once v (f <$> group).
Proof.
  intros Hi Hj Hij Hfi Hfj. unfold once.
  enough (2 ≤ length (filter (λ x, x = v) (f <$> group))) by lia.
  apply list_elem_of_split in Hi as (l1 & l2 & ->).
  rewrite fmap_app, fmap_cons, filter_app, filter_cons_True, length_app by done.
  simpl. apply elem_of_app in Hj as [Hj|Hj].
  - apply list_elem_of_split in Hj as (l3 & l4 & ->).
    rewrite fmap_app, fmap_cons, filter_app, filter_cons_True, length_app by done.
    simpl. lia.
  - apply elem_of_cons in Hj as [->|Hj]; [done|].
    apply list_elem_of_split in Hj as (l3 & l4 & ->).
    rewrite fmap_app, fmap_cons, filter_app, filter_cons_True, length_app by done.
    simpl. lia.
Qed.

Lemma row_twice_invalid soln i j v :
  i < 81 → j < 81 → i ≠ j → toRow i = toRow j → (1 ≤ v ≤ 9)%Z →
  soln !! i = Some v → soln !! j = Some v → ¬ valid_grid soln.
Proof.
  intros Hi Hj Hij Hrow Hv Hsi Hsj Hvalid. unfold valid_grid in Hvalid.
  rewrite Forall_forall in Hvalid.
  assert (getRow (toRow i) ∈ groups) as Hg.
  { unfold groups. apply elem_of_app. left. apply list_elem_of_fmap.
    exists (toRow i). split; [done|]. apply elem_of_seq.
    pose proof (toRow_lt i Hi). lia. }
  specialize (Hvalid _ Hg). rewrite Forall_forall in Hvalid.
  assert (v ∈ set_iter digits) as Hvd by (by apply elem_of_set_iter, elem_of_digits).
  apply (twice_not_once (λ i, default 0%Z (soln !! i)) (getRow (toRow i)) i j v);
    try done.
  - rewrite getRow_members by (by apply toRow_lt). by apply elem_of_members.
  - rewrite getRow_members by (by apply toRow_lt). by apply elem_of_members.
  - by rewrite Hsi.
  - by rewrite Hsj.
  - by apply Hvalid.
Qed.

(** * The claims *)

(** ** Geometry *)

(** C9: for every index below 81, [toRow] is [idx / 9], [toCol] is
    [idx mod 9] and [toBox] is [(idx / 9 / 3) * 3 + (idx mod 9) / 3] with
    floor division, each below 9; and for every group number below 9,
    [getRow], [getCol] and [getBox] list, in ascending order, exactly the
    indices below 81 that [toRow], [toCol] and [toBox] send to that number,
    nine of them. *)
Theorem geometry_formulas_and_members (idx g : nat) :
  idx < 81 → g < 9 →
  (toRow idx = idx / 9 ∧ toCol idx = idx mod 9
   ∧ toBox idx = idx / 9 / 3 * 3 + idx mod 9 / 3)
  ∧ (toRow idx < 9 ∧ toCol idx < 9 ∧ toBox idx < 9)
  ∧ (getRow g = filter (λ i, toRow i = g) (seq 0 81)
     ∧ getCol g = filter (λ i, toCol i = g) (seq 0 81)
     ∧ getBox g = filter (λ i, toBox i = g) (seq 0 81))
  ∧ (length (getRow g) = 9 ∧ length (getCol g) = 9 ∧ length (getBox g) = 9).
Proof.
  intros Hidx Hg. split_and!; try done.
  - by apply toRow_lt.
  - by apply toCol_lt.
  - by apply toBox_lt.
  - by apply getRow_members.
  - by apply getCol_members.
  - by apply getBox_members.
  - revert Hg. apply (below_9 (λ g, length (getRow g) = 9)). by vm_compute.
  - revert Hg. apply (below_9 (λ g, length (getCol g) = 9)). by vm_compute.
  - revert Hg. apply (below_9 (λ g, length (getBox g) = 9)). by vm_compute.
Qed.

Lemma geometry_formulas_and_members_witness :
  (40 < 81 ∧ 4 < 9)
  ∧ (toRow 40 = 4 ∧ toCol 40 = 4 ∧ toBox 40 = 4)
  ∧ getBox 4 = [30; 31; 32; 39; 40; 41; 48; 49; 50].
Proof.
  assert (40 < 81) as H1 by lia. assert (4 < 9) as H2 by lia.
  destruct (geometry_formulas_and_members 40 4 H1 H2)
    as ((Hr & Hc & Hb) & _ & (_ & _ & Hbox) & _).
  split; [done|]. split; [by rewrite Hr, Hc, Hb|]. by rewrite Hbox.
Defined.

(** ** propagate *)

(** C4, at the grid [late_single]: no square has a single option when
    [propagate] is called, so the first pass of the loop leaves [changed]
    false; its second half then writes 1 into squares 73 and 36, which
    leaves square 37 open with the single option 2, and the loop stops
    there.  A second call of [propagate] writes 2 into square 37. *)
Theorem propagate_stops_before_fixed_point :
  length late_single_pruned = 81
  ∧ changed_by_naked_singles late_single_pruned = Ok false
  ∧ writes (snd late_single_propagated) = [(73, 1%Z); (36, 1%Z)]
  ∧ show_square <$> fst late_single_propagated !! 37 = Some (0%Z, [2%Z])
  ∧ writes (snd late_single_again) = [(37, 2%Z)]
  ∧ show_square <$> fst late_single_again !! 37 = Some (2%Z, []).
Proof. split_and!; vm_compute; reflexivity. Qed.

(** C5: on every grid in which a square with a value has no options, the
    options are digits and no option of a square is the value of one of
    its peers, [propagate] returns, and every value it writes, by either
    rule, differs at the moment of the write from the value of every peer
    of the written square. *)
Theorem propagate_writes_avoid_peers (sudoku : list square) :
  grid_ok sudoku → pruned sudoku →
  ∃ sudoku' log,
    propagate_log sudoku = Ok (sudoku', log)
    ∧ propagate sudoku = Ok sudoku'
    ∧ Forall ev_sound log.
Proof.
  intros Hok Hpr.
  destruct (propagate_log_spec sudoku Hok) as (s' & log & Hlog & Hinv & _).
  exists s', log. split_and!; [done| |by apply (si_sound _ _ _ Hinv)].
  unfold propagate. by rewrite Hlog.
Qed.

Lemma propagate_writes_avoid_peers_witness :
  (grid_ok late_single_pruned ∧ pruned late_single_pruned)
  ∧ ∃ sudoku' log,
      propagate_log late_single_pruned = Ok (sudoku', log)
      ∧ propagate late_single_pruned = Ok sudoku'
      ∧ Forall ev_sound log.
Proof.
  assert (grid_ok late_single_pruned) as Hok
    by by_evaluation.
  assert (pruned late_single_pruned) as Hpr
    by (apply prunedb_spec; vm_compute; reflexivity).
  split; [done|].
  exact (propagate_writes_avoid_peers late_single_pruned Hok Hpr).
Defined.

(** The grid [solve] passes to [propagate] is such a grid, whatever the
    81 digits of the input. *)
Lemma solve_calls_propagate_on_pruned_grid (grid : list Z) :
  input_ok grid →
  ∃ sudoku, prune (mkGrid grid) = Ok sudoku ∧ grid_ok sudoku ∧ pruned sudoku.
Proof.
  intros Hin.
  destruct (prune_step_inv _ (mkGrid_ok grid Hin)) as (s & Hs & Hinv & Hpr & _).
  exists s. split_and!; [done|apply Hinv|done].
Qed.

(** ** The order of the values *)



(** ** solve *)

(** C1, as stated, fails: with all 81 squares given as 1, [solve] returns
    the input, in which every square has a value and no group holds each
    digit once. *)
Lemma solve_returns_invalid_grid :
  input_ok all_ones ∧ solve all_ones = Ok (Some all_ones)
  ∧ isSolved all_ones = true ∧ ¬ valid_grid all_ones.
Proof.
  split_and!.
  - by_evaluation.
  - vm_compute. reflexivity.
  - vm_compute. reflexivity.
  - intros H. apply (bool_decide_pack _) in H. by vm_compute in H.
Qed.

(** C1, amended: for every input of 81 integers in [0,9] in which no two
    squares of a row, column or box hold the same nonzero digit, a grid
    returned by [solve] in which every square has a value holds each digit
    exactly once in each of the 27 groups. *)
Theorem solve_valid_without_conflict (grid soln : list Z) :
  input_ok grid → no_conflict grid →
  solve grid = Ok (Some soln) → isSolved soln = true →
  valid_grid soln.
Proof.
  intros Hin Hnc Hsolve Hsolved.
  destruct (solve_spec grid Hin) as (s & r & _ & Hr & Hout).
  rewrite Hsolve in Hr. injection Hr as <-.
  destruct Hout as (_ & Hsoln & _ & Hncs & _).
  apply solved_valid; auto.
Qed.

Lemma solve_valid_without_conflict_witness :
  (input_ok puzzle1 ∧ no_conflict puzzle1
   ∧ solve puzzle1 = Ok (Some solution1) ∧ isSolved solution1 = true)
  ∧ valid_grid solution1.
Proof.
  assert (input_ok puzzle1) as H1
    by by_evaluation.
  assert (no_conflict puzzle1) as H2
    by (apply no_conflictb_spec; vm_compute; reflexivity).
  assert (solve puzzle1 = Ok (Some solution1)) as H3
    by (vm_compute; reflexivity).
  assert (isSolved solution1 = true) as H4 by (vm_compute; reflexivity).
  split; [by split_and!|].
  exact (solve_valid_without_conflict puzzle1 solution1 H1 H2 H3 H4).
Defined.

(** C2, as stated, fails: on [dead_end] no square is without options after
    propagation, every guess fails, and [solve] returns the grid with its
    six squares still open. *)
Lemma solve_returns_partial_grid :
  input_ok dead_end ∧ solve dead_end = Ok (Some dead_end)
  ∧ isSolved dead_end = false.
Proof.
  split_and!.
  - by_evaluation.
  - vm_compute. reflexivity.
  - vm_compute. reflexivity.
Qed.

(** C2, amended: for every input of 81 integers in [0,9], [solve] returns,
    and returns either the no-solution signal, exactly when some square of
    the propagated grid has neither value nor option, or 81 integers in
    [0,9] that are either a grid with every square assigned or, when no
    guess led to one, the values of the propagated grid, open squares
    included. *)
Theorem solve_returns_signal_or_grid (grid : list Z) :
  input_ok grid →
  ∃ sudoku r,
    propagated grid = Ok sudoku ∧ solve grid = Ok r ∧
    match r with
    | None => invalid_state sudoku = true
    | Some soln =>
        invalid_state sudoku = false ∧ input_ok soln
        ∧ (isSolved soln = true ∨ soln = val <$> sudoku)
    end.
Proof.
  intros Hin. destruct (solve_spec grid Hin) as (s & r & Hs & Hr & Hout).
  exists s, r. split_and!; [done..|].
  destruct r as [soln|]; [|done]. simpl in Hout. tauto.
Qed.

Lemma solve_returns_signal_or_grid_witness :
  input_ok dead_end
  ∧ ∃ sudoku r,
      propagated dead_end = Ok sudoku ∧ solve dead_end = Ok r ∧
      match r with
      | None => invalid_state sudoku = true
      | Some soln =>
          invalid_state sudoku = false ∧ input_ok soln
          ∧ (isSolved soln = true ∨ soln = val <$> sudoku)
      end.
Proof.
  assert (input_ok dead_end) as H1
    by by_evaluation.
  split; [exact H1|]. exact (solve_returns_signal_or_grid dead_end H1).
Defined.

(** C3, as stated, fails: [two_fours] has 4 in squares 0 and 1 of row 0,
    and [solve] returns a grid, with both of them in it. *)
Lemma solve_accepts_duplicate_in_row :
  input_ok two_fours
  ∧ two_fours !! 0 = Some 4%Z ∧ two_fours !! 1 = Some 4%Z ∧ toRow 0 = toRow 1
  ∧ solve two_fours = Ok (Some (<[1 := 4%Z]> solution1)).
Proof.
  split_and!.
  - by_evaluation.
  - reflexivity.
  - reflexivity.
  - reflexivity.
  - vm_compute. reflexivity.
Qed.

(** C3, amended: for every input of 81 integers in [0,9] with the same
    nonzero digit in two squares of a row, [solve] returns, and returns
    either the no-solution signal or a grid that still has that digit in
    both squares, so never a grid in which every group holds each digit
    once. *)
Theorem solve_keeps_duplicate_in_row (grid : list Z) (i j : nat) (v : Z) :
  input_ok grid → i ≠ j → toRow i = toRow j →
  grid !! i = Some v → grid !! j = Some v → v ≠ 0%Z →
  ∃ r, solve grid = Ok r ∧
    (r = None ∨
     ∃ soln, r = Some soln ∧ soln !! i = Some v ∧ soln !! j = Some v
             ∧ ¬ valid_grid soln).
Proof.
  intros Hin Hij Hrow Hi Hj Hv.
  destruct (solve_spec grid Hin) as (s & r & _ & Hr & Hout).
  exists r. split; [done|]. destruct r as [soln|]; [right|by left].
  destruct Hout as (_ & _ & Hkeep & _). exists soln.
  pose proof (Hkeep i v Hi Hv) as Hsi. pose proof (Hkeep j v Hj Hv) as Hsj.
  split_and!; [done..|].
  destruct Hin as [Hlen Hall]. rewrite Forall_forall in Hall.
  pose proof (Hall v (list_elem_of_lookup_2 _ _ _ Hi)) as Hv09. simpl in Hv09.
  apply (row_twice_invalid soln i j v); try done.
  - apply lookup_lt_Some in Hi. lia.
  - apply lookup_lt_Some in Hj. lia.
  - lia.
Qed.

Lemma solve_keeps_duplicate_in_row_witness :
  (input_ok two_fours ∧ 0 ≠ 1 ∧ toRow 0 = toRow 1
   ∧ two_fours !! 0 = Some 4%Z ∧ two_fours !! 1 = Some 4%Z ∧ 4%Z ≠ 0%Z)
  ∧ ∃ r, solve two_fours = Ok r ∧
      (r = None ∨
       ∃ soln, r = Some soln ∧ soln !! 0 = Some 4%Z ∧ soln !! 1 = Some 4%Z
               ∧ ¬ valid_grid soln).
Proof.
  assert (input_ok two_fours) as H1
    by by_evaluation.
  assert (0 ≠ 1) as H2 by lia.
  assert (toRow 0 = toRow 1) as H3 by reflexivity.
  assert (two_fours !! 0 = Some 4%Z) as H4 by reflexivity.
  assert (two_fours !! 1 = Some 4%Z) as H5 by reflexivity.
  assert (4%Z ≠ 0%Z) as H6 by lia.
  split; [by split_and!|].
  exact (solve_keeps_duplicate_in_row two_fours 0 1 4%Z H1 H2 H3 H4 H5 H6).
Defined.

(** C6, as stated, fails: on [dead_end] the branching step is reached, the
    open square with the fewest options and the lowest index is square 0,
    and neither of its options leads to a solution; [solve] then guesses at
    squares 1, 2, 9, 10 and 11 as well, and returns the partly filled grid,
    not the no-solution signal. *)
Lemma solve_guesses_beyond_first_square :
  length dead_end_propagated = 81
  ∧ invalid_state dead_end_propagated = false
  ∧ val <$> dead_end_propagated = dead_end
  ∧ guesses dead_end_propagated =
      [(0, 1%Z); (0, 2%Z); (1, 1%Z); (1, 2%Z); (2, 1%Z); (2, 2%Z);
       (9, 1%Z); (9, 2%Z); (10, 1%Z); (10, 2%Z); (11, 1%Z); (11, 2%Z)]
  ∧ solve (<[0 := 1%Z]> dead_end) = Ok None
  ∧ solve (<[0 := 2%Z]> dead_end) = Ok None
  ∧ solve dead_end = Ok (Some dead_end).
Proof. split_and!; vm_compute; reflexivity. Qed.

(** C6, amended: in every [solve] invocation that reaches the branching
    step, the result is that of the first guess, in the order of [guesses],
    on which the recursive call returns a grid with every square assigned,
    and the values of the propagated grid when there is none; [guesses]
    holds one guess for every option of every square without a value,
    square by square in ascending order of the number of options, ties by
    lowest index, so that the first square guessed at is the open square
    with the fewest options, and the others follow when it fails. *)
Theorem solve_guesses_every_open_square (fuel : nat) (grid : list Z) :
  solve_fuel (S fuel) grid =
    (sudoku ← propagated grid;
     if invalid_state sudoku then Ok None
     else found ← first_solved (solve_fuel fuel) sudoku (guesses sudoku);
          Ok (Some (default (val <$> sudoku) found)))
  ∧ ∀ sudoku : list square,
      (∀ i v, (i, v) ∈ guesses sudoku ↔
              ∃ sq, sudoku !! i = Some sq ∧ val sq = 0%Z ∧ v ∈ opts sq)
      ∧ StronglySorted (λ a b : nat * Z, a.1 = b.1 ∨ before sudoku a.1 b.1)
          (guesses sudoku)
      ∧ (∀ i v rest j w,
           guesses sudoku = (i, v) :: rest → (j, w) ∈ guesses sudoku →
           j = i ∨ before sudoku i j).
Proof.
  split; [apply solve_fuel_unfold|]. intros sudoku.
  split_and!; [apply elem_of_guesses|apply guesses_sorted|].
  intros i v rest j w Hg Hjw. pose proof (guesses_sorted sudoku) as Hsorted.
  rewrite Hg in Hsorted, Hjw.
  apply StronglySorted_cons in Hsorted as [Hall _].
  apply elem_of_cons in Hjw as [[= -> ->]|Hjw]; [by left|].
  rewrite Forall_forall in Hall. destruct (Hall _ Hjw) as [Heq|Hlt]; simpl in *.
  - by left.
  - by right.
Qed.

(** C8: for every input of 81 integers in [0,9], every nonzero digit of
    the input is still in its square after the pruning and propagation of
    [solve], and in the grid [solve] returns, if it returns one. *)
Theorem solve_keeps_givens (grid : list Z) :
  input_ok grid →
  ∃ sudoku r,
    propagated grid = Ok sudoku ∧ keeps_givens grid (val <$> sudoku)
    ∧ solve grid = Ok r ∧ ∀ soln, r = Some soln → keeps_givens grid soln.
Proof.
  intros Hin. destruct (solve_spec grid Hin) as (s & r & Hs & Hr & Hout).
  exists s, r. split_and!; [done| |done|].
  - destruct (propagated_spec grid Hin) as (s' & Hs' & _ & _ & Hev & _).
    rewrite Hs in Hs'. injection Hs' as <-. by apply evolves_keeps_givens.
  - intros soln ->. simpl in Hout. tauto.
Qed.

Lemma solve_keeps_givens_witness :
  input_ok puzzle1
  ∧ ∃ sudoku r,
      propagated puzzle1 = Ok sudoku ∧ keeps_givens puzzle1 (val <$> sudoku)
      ∧ solve puzzle1 = Ok r
      ∧ ∀ soln, r = Some soln → keeps_givens puzzle1 soln.
Proof.
  assert (input_ok puzzle1) as H1
    by by_evaluation.
  split; [exact H1|]. exact (solve_keeps_givens puzzle1 H1).
Defined.

(** C10: for every input of 81 integers in [0,9], [solve] returns without
    raising [IndexError] or [KeyError], in any of its recursive calls, and
    every option of every square without a value of the propagated grid has
    an entry in the frequency table, which counts the squares that admit
    it, that square included. *)
Theorem solve_raises_nothing (grid : list Z) :
  input_ok grid →
  ∃ sudoku r,
    propagated grid = Ok sudoku ∧ solve grid = Ok r
    ∧ ∀ i sq v, sudoku !! i = Some sq → val sq = 0%Z → v ∈ opts sq →
        count_frequency sudoku !! v = Some (S (others_admitting sudoku i v)).
Proof.
  intros Hin. destruct (solve_spec grid Hin) as (s & r & Hs & Hr & _).
  exists s, r. split_and!; [done..|]. apply count_frequency_open.
Qed.

Lemma solve_raises_nothing_witness :
  input_ok dead_end
  ∧ ∃ sudoku r,
      propagated dead_end = Ok sudoku ∧ solve dead_end = Ok r
      ∧ ∀ i sq v, sudoku !! i = Some sq → val sq = 0%Z → v ∈ opts sq →
          count_frequency sudoku !! v = Some (S (others_admitting sudoku i v)).
Proof.
  assert (input_ok dead_end) as H1
    by by_evaluation.
  split; [exact H1|]. exact (solve_raises_nothing dead_end H1).
Defined.

(** * Further properties of the code *)

(** ** prune and updateConstraints *)

(** X1. On a grid of 81 squares [prune] returns a grid of 81 squares in
    which a square with a value is unchanged, and an open square keeps
    exactly those of its options that are digits and the value of none of
    the squares of its row, column and box. *)
Theorem prune_keeps_unheld_digits (sudoku : list square) :
  length sudoku = 81 →
  ∃ sudoku',
    prune sudoku = Ok sudoku' ∧ length sudoku' = 81 ∧
    ∀ j sq, sudoku !! j = Some sq →
      ∃ sq', sudoku' !! j = Some sq' ∧ val sq' = val sq
        ∧ (val sq ≠ 0%Z → sq' = sq)
        ∧ (val sq = 0%Z →
           ∀ v, v ∈ opts sq' ↔
                v ∈ opts sq ∧ (1 ≤ v ≤ 9)%Z ∧
                ∀ i sqi, sudoku !! i = Some sqi → val sqi ≠ 0%Z →
                         i ∈ peers j → val sqi ≠ v).
Proof.
  intros Hlen. destruct (prune_spec sudoku Hlen) as (s' & Hp & Hlen' & Hs').
  exists s'. split_and!; [done..|]. intros j sq Hsq.
  destruct (Hs' j sq Hsq) as (sq' & Hsq' & Hv & Hfix & Hopen).
  exists sq'. split_and!; [done..|]. intros H0 v.
  rewrite (Hopen H0 v), elem_of_digits. tauto.
Qed.

Lemma prune_keeps_unheld_digits_witness :
  length (mkGrid puzzle1) = 81
  ∧ ∃ sudoku',
      prune (mkGrid puzzle1) = Ok sudoku' ∧ length sudoku' = 81 ∧
      ∀ j sq, mkGrid puzzle1 !! j = Some sq →
        ∃ sq', sudoku' !! j = Some sq' ∧ val sq' = val sq
          ∧ (val sq ≠ 0%Z → sq' = sq)
          ∧ (val sq = 0%Z →
             ∀ v, v ∈ opts sq' ↔
                  v ∈ opts sq ∧ (1 ≤ v ≤ 9)%Z ∧
                  ∀ i sqi, mkGrid puzzle1 !! i = Some sqi → val sqi ≠ 0%Z →
                           i ∈ peers j → val sqi ≠ v).
Proof.
  assert (length (mkGrid puzzle1) = 81) as H1 by reflexivity.
  split; [exact H1|]. exact (prune_keeps_unheld_digits (mkGrid puzzle1) H1).
Defined.

Lemma square_eq (sq sq' : square) :
  val sq = val sq' → (∀ v, v ∈ opts sq ↔ v ∈ opts sq') → sq = sq'.
Proof.
  destruct sq as [v o], sq' as [v' o']. simpl. intros -> Ho. f_equal.
  by apply set_eq.
Qed.

(** X2. Pruning twice is pruning once. *)
Theorem prune_idempotent (sudoku : list square) :
  length sudoku = 81 →
  ∃ sudoku', prune sudoku = Ok sudoku' ∧ prune sudoku' = Ok sudoku'.
Proof.
  intros Hlen. destruct (prune_spec sudoku Hlen) as (s1 & Hp1 & Hlen1 & Hs1).
  destruct (prune_spec s1 Hlen1) as (s2 & Hp2 & Hlen2 & Hs2).
  exists s1. split; [done|]. rewrite Hp2. f_equal. apply list_eq. intros j.
  destruct (sudoku !! j) as [sq|] eqn:Hsq.
  - destruct (Hs1 j sq Hsq) as (sq1 & Hsq1 & Hv1 & Hfix1 & Hopen1).
    destruct (Hs2 j sq1 Hsq1) as (sq2 & Hsq2 & Hv2 & Hfix2 & Hopen2).
    rewrite Hsq1, Hsq2. f_equal.
    destruct (decide (val sq1 = 0%Z)) as [H0|H0]; [|by apply Hfix2].
    apply square_eq; [done|]. intros v. rewrite (Hopen2 H0 v).
    split; [tauto|]. intros Hv. split; [done|].
    rewrite Hv1 in H0. apply (Hopen1 H0) in Hv as (_ & Hd & Hu).
    split; [done|]. intros i sqi1 Hi Hne Hp.
    destruct (sudoku !! i) as [sqi|] eqn:Hsqi.
    + destruct (Hs1 i sqi Hsqi) as (sqi' & Hsqi' & Hvi & _).
      simplify_eq. rewrite Hvi in *. by apply (Hu i sqi).
    + apply lookup_ge_None in Hsqi. apply lookup_lt_Some in Hi. lia.
  - apply lookup_ge_None in Hsq.
    rewrite !(proj2 (lookup_ge_None _ _)); [done|lia..].
Qed.

Lemma prune_idempotent_witness :
  length (mkGrid puzzle1) = 81
  ∧ ∃ sudoku', prune (mkGrid puzzle1) = Ok sudoku' ∧ prune sudoku' = Ok sudoku'.
Proof.
  assert (length (mkGrid puzzle1) = 81) as H1 by reflexivity.
  split; [exact H1|]. exact (prune_idempotent (mkGrid puzzle1) H1).
Defined.

(** X3. On a grid of 81 squares and for an index below 81,
    [updateConstraints] returns a grid of 81 squares with the same values,
    in which [value] is gone from the options of the open squares of the
    box, row and column of [idx], and nothing else has changed. *)
Theorem updateConstraints_strikes_peers (sudoku : list square) (idx : nat)
    (value : Z) :
  length sudoku = 81 → idx < 81 →
  ∃ sudoku',
    updateConstraints sudoku idx value = Ok sudoku' ∧ length sudoku' = 81 ∧
    ∀ j sq, sudoku !! j = Some sq →
      ∃ sq', sudoku' !! j = Some sq' ∧ val sq' = val sq ∧
        opts sq' =
          if decide (val sq = 0%Z ∧
                     (toBox j = toBox idx ∨ toRow j = toRow idx
                      ∨ toCol j = toCol idx))
          then opts sq ∖ {[value]} else opts sq.
Proof.
  intros Hlen Hidx.
  destruct (updateConstraints_spec sudoku idx value Hlen Hidx)
    as (s' & Hup & Hlen' & Hs').
  exists s'. split_and!; [done..|]. intros j sq Hsq.
  assert (j < 81) as Hj by (apply lookup_lt_Some in Hsq; lia).
  rewrite Hs', Hsq. simpl. eexists. split; [done|].
  pose proof (elem_of_peers idx j Hidx) as Hpeers.
  destruct (decide (j ∈ peers idx)) as [Hp|Hp]; unfold strike.
  - destruct (decide (val sq = 0%Z)) as [H0|H0]; simpl.
    + split; [done|]. rewrite decide_True; [done|]. tauto.
    + split; [done|]. rewrite decide_False; [done|]. tauto.
  - simpl. split; [done|]. rewrite decide_False; [done|]. tauto.
Qed.

Lemma updateConstraints_strikes_peers_witness :
  (length (mkGrid puzzle1) = 81 ∧ 40 < 81)
  ∧ ∃ sudoku',
      updateConstraints (mkGrid puzzle1) 40 5%Z = Ok sudoku'
      ∧ length sudoku' = 81 ∧
      ∀ j sq, mkGrid puzzle1 !! j = Some sq →
        ∃ sq', sudoku' !! j = Some sq' ∧ val sq' = val sq ∧
          opts sq' =
            if decide (val sq = 0%Z ∧
                       (toBox j = toBox 40 ∨ toRow j = toRow 40
                        ∨ toCol j = toCol 40))
            then opts sq ∖ {[5%Z]} else opts sq.
Proof.
  assert (length (mkGrid puzzle1) = 81) as H1 by reflexivity.
  assert (40 < 81) as H2 by lia.
  split; [done|].
  exact (updateConstraints_strikes_peers (mkGrid puzzle1) 40 5%Z H1 H2).
Defined.

(** ** propagate *)

(** X4. On every well-formed grid [propagate] returns a well-formed grid in
    which no option of a square is the value of one of its peers, options
    have only been removed, no square that had a value has another, and,
    when the grid was pruned and no two peers held the same value, no two
    peers hold the same value. *)
Theorem propagate_keeps_grid (sudoku : list square) :
  grid_ok sudoku →
  ∃ sudoku',
    propagate sudoku = Ok sudoku' ∧ grid_ok sudoku' ∧ pruned sudoku'
    ∧ (∀ j sq sq', sudoku !! j = Some sq → sudoku' !! j = Some sq' →
         opts sq' ⊆ opts sq ∧ (val sq ≠ 0%Z → val sq' = val sq))
    ∧ (pruned sudoku → distinct sudoku → distinct sudoku').
Proof.
  intros Hok. destruct (propagate_spec sudoku Hok) as (s' & log & Hp & Hinv & Hpr).
  exists s'. split_and!; [done|apply Hinv|done| |apply Hinv].
  apply (si_evolves _ _ _ Hinv).
Qed.

Lemma propagate_keeps_grid_witness :
  grid_ok late_single_pruned
  ∧ ∃ sudoku',
      propagate late_single_pruned = Ok sudoku' ∧ grid_ok sudoku'
      ∧ pruned sudoku'
      ∧ (∀ j sq sq', late_single_pruned !! j = Some sq →
           sudoku' !! j = Some sq' →
           opts sq' ⊆ opts sq ∧ (val sq ≠ 0%Z → val sq' = val sq))
      ∧ (pruned late_single_pruned → distinct late_single_pruned →
         distinct sudoku').
Proof.
  assert (grid_ok late_single_pruned) as H1 by by_evaluation.
  split; [exact H1|]. exact (propagate_keeps_grid late_single_pruned H1).
Defined.

Lemma zeros_lt (l l' : list Z) i v :
  Forall2 (λ a b, b = 0%Z → a = 0%Z) l l' →
  l !! i = Some 0%Z → l' !! i = Some v → v ≠ 0%Z → zeros l' < zeros l.
Proof.
  intros H. revert i. induction H as [|a b l l' Hab Hl IH]; intros i Hi Hi' Hv.
  - done.
  - destruct i as [|i]; simpl in *.
    + simplify_eq. pose proof (zeros_le l l' Hl). unfold zeros in *.
      rewrite (filter_cons_False _ v) by done.
      rewrite (filter_cons_True _ 0%Z) by done. simpl. lia.
    + specialize (IH i Hi Hi' Hv). unfold zeros in *.
      rewrite !filter_cons. repeat case_decide; simpl; lia.
Qed.

Lemma evolves_zeros_Forall2 s s' :
  evolves s s' → Forall2 (λ a b, b = 0%Z → a = 0%Z) (val <$> s) (val <$> s').
Proof.
  intros [Hlen Hev]. apply Forall2_fmap.
  apply Forall2_same_length_lookup_2; [done|].
  intros i a b Ha Hb H0. destruct (Hev i a b Ha Hb) as [_ Hv].
  destruct (decide (val a = 0%Z)); [done|]. rewrite <-Hv; done.
Qed.

Lemma naked_step_zeros s x sq v s' :
  grid_ok s → s !! x = Some sq → size (opts sq) = 1 →
  set_pop (opts sq) = Ok (v, ∅) →
  updateConstraints (<[x := Square v ∅]> s) x v = Ok s' →
  zeros (val <$> s') < zeros (val <$> s).
Proof.
  intros Hok Hsq Hsize Hpop Hup.
  destruct (naked_step s x sq Hok Hsq Hsize) as (v' & s'' & Hpop' & Hup' & Hinv & _).
  rewrite Hpop in Hpop'. injection Hpop' as <-.
  rewrite Hup in Hup'. injection Hup' as <-.
  destruct (set_pop_singleton _ Hsize) as (w & Hopts & Hpop'').
  rewrite Hpop in Hpop''. injection Hpop'' as <-.
  pose proof (grid_ok_lookup _ _ _ Hok Hsq) as (_ & Hd & He).
  assert (v ∈ digits) as Hv by set_solver.
  assert (val sq = 0%Z) as H0.
  { destruct (decide (val sq = 0%Z)) as [|Hne]; [done|].
    rewrite (He Hne) in Hsize. by rewrite size_empty in Hsize. }
  assert (x < 81) as Hx by (by eapply grid_ok_lt).
  destruct (assign_spec s x v ∅) as (s2 & Hup2 & _ & Hx2 & _);
    [apply Hok|done|apply elem_of_digits in Hv; lia|].
  rewrite Hup in Hup2. injection Hup2 as <-.
  apply (zeros_lt _ _ x v).
  - apply evolves_zeros_Forall2, Hinv.
  - by rewrite list_lookup_fmap, Hsq; simpl; rewrite H0.
  - by rewrite list_lookup_fmap, Hx2.
  - apply elem_of_digits in Hv. lia.
Qed.

Lemma naked_singles_zeros s log :
  grid_ok s →
  ∃ s' changed log',
    naked_singles s log = Ok (s', changed, log')
    ∧ grid_ok s' ∧ evolves s s'
    ∧ (changed = true → zeros (val <$> s') < zeros (val <$> s)).
Proof.
  intros Hok. unfold naked_singles.
  edestruct (for__invariant
      (λ (seen : list nat) (st : list square * bool * list event),
         grid_ok st.1.1 ∧ evolves s st.1.1
         ∧ (st.1.2 = true → zeros (val <$> st.1.1) < zeros (val <$> s))))
    as ([[s' changed] log1] & Hfor & HI);
    [| |by rewrite Hfor; exists s', changed, log1].
  - split_and!; [done|apply evolves_refl|done].
  - intros seen x post [[s1 ch] log1] Hseq (Hok1 & Hev & Hch). simpl in *.
    assert (x < 81) as Hx.
    { destruct Hok as [Hlen _]. rewrite Hlen in Hseq.
      assert (x ∈ seq 0 81) as Hin%elem_of_seq; [|lia].
      change (range 0 81) with (seq 0 81) in Hseq.
      rewrite Hseq, elem_of_app, elem_of_cons. tauto. }
    destruct (lookup_lt_is_Some_2 s1 x) as [sq Hsq];
      [destruct Hok1 as [-> _]; lia|].
    rewrite (getitem_Some _ _ _ Hsq). simpl. case_decide as Hsize.
    + destruct (naked_step s1 x sq Hok1 Hsq Hsize)
        as (v & s2 & Hpop & Hup & Hstep & _).
      pose proof (naked_step_zeros s1 x sq v s2 Hok1 Hsq Hsize Hpop Hup) as Hlt.
      rewrite Hpop. simpl. rewrite Hup. simpl. eexists. split; [done|].
      split_and!; [apply Hstep|eapply evolves_trans; [done|apply Hstep]|].
      simpl. intros _. pose proof (evolves_zeros _ _ Hev). lia.
    + eexists. split; [done|]. done.
Qed.

Lemma propagate_loop_zeros fuel s log :
  grid_ok s → zeros (val <$> s) < fuel →
  ∃ r, propagate_loop fuel s log = Ok r.
Proof.
  revert s log. induction fuel as [|fuel IH]; intros s log Hok Hfuel; [lia|].
  simpl.
  destruct (naked_singles_zeros s log Hok)
    as (s1 & changed & l1 & -> & Hok1 & Hev1 & Hlt). simpl.
  destruct (prune_step_inv s1 Hok1) as (s2 & -> & H2 & _). simpl.
  destruct (hidden_singles_spec s2 l1) as (s3 & l3 & -> & H3); [apply H2|].
  simpl. destruct changed; [|by eexists].
  apply IH; [apply H3|].
  pose proof (evolves_zeros _ _ (si_evolves _ _ _ H2)).
  pose proof (evolves_zeros _ _ (si_evolves _ _ _ H3)).
  specialize (Hlt eq_refl). lia.
Qed.

Lemma propagate_loop_more_fuel fuel1 fuel2 s log r :
  fuel1 ≤ fuel2 → propagate_loop fuel1 s log = Ok r →
  propagate_loop fuel2 s log = Ok r.
Proof.
  revert fuel2 s log. induction fuel1 as [|fuel1 IH];
    intros [|fuel2] s log Hle; simpl; try done; try lia.
  destruct (naked_singles s log) as [[[s1 changed] l1]| |]; simpl; [|done..].
  destruct (prune s1) as [s2| |]; simpl; [|done..].
  destruct (hidden_singles (s2, l1)) as [[s3 l3]| |]; simpl; [|done..].
  destruct changed; [|done]. apply IH. lia.
Qed.

(** X5. On a well-formed grid the [while] loop of [propagate] ends after
    at most one pass more than there are squares without a value: with
    that many passes allowed, and with any more, it returns what
    [propagate] returns. *)
Theorem propagate_passes_bounded (sudoku : list square) (fuel : nat) :
  grid_ok sudoku → zeros (val <$> sudoku) < fuel →
  ∃ r, propagate_loop fuel sudoku [] = Ok r ∧ propagate_log sudoku = Ok r.
Proof.
  intros Hok Hfuel.
  destruct (propagate_loop_zeros fuel sudoku [] Hok Hfuel) as [r Hr].
  destruct (propagate_log_spec sudoku Hok) as (s' & log & Hlog & _).
  unfold propagate_log in *. exists r. split; [done|].
  destruct (decide (fuel ≤ S (options_left sudoku))) as [Hle|Hgt].
  - by apply (propagate_loop_more_fuel fuel).
  - rewrite Hlog. rewrite <-Hr. symmetry.
    apply (propagate_loop_more_fuel (S (options_left sudoku))); [lia|done].
Qed.

Lemma propagate_passes_bounded_witness :
  (grid_ok late_single_pruned ∧ zeros (val <$> late_single_pruned) < 71)
  ∧ ∃ r, propagate_loop 71 late_single_pruned [] = Ok r
         ∧ propagate_log late_single_pruned = Ok r.
Proof.
  assert (grid_ok late_single_pruned) as H1 by by_evaluation.
  assert (zeros (val <$> late_single_pruned) < 71) as H2
    by (vm_compute; lia).
  split; [done|].
  exact (propagate_passes_bounded late_single_pruned 71 H1 H2).
Defined.

(** ** The frequency table and the recursion of solve *)

(** X6. The frequency table of [solve] has an entry for exactly the values
    that some square without a value admits, and the entry is the number of
    such squares. *)
Theorem count_frequency_counts_open_squares (sudoku : list square) (v : Z) :
  count_frequency sudoku !! v =
    if decide (admitting v sudoku = 0) then None
    else Some (admitting v sudoku).
Proof.
  rewrite count_frequency_lookup. unfold bump.
  destruct (admitting v sudoku); by case_decide.
Qed.

(** X7. [solve] never recurses deeper than the number of zeros of its input
    plus one: with that depth allowed, and with any more, the result is
    that of [solve]. *)
Theorem solve_depth_bounded (grid : list Z) (fuel : nat) :
  input_ok grid → zeros grid < fuel → solve_fuel fuel grid = solve grid.
Proof.
  intros Hin Hfuel. apply solve_fuel_enough; [done..|].
  pose proof (zeros_length grid). lia.
Qed.

Lemma solve_depth_bounded_witness :
  (input_ok dead_end ∧ zeros dead_end < 7)
  ∧ solve_fuel 7 dead_end = solve dead_end.
Proof.
  assert (input_ok dead_end) as H1 by by_evaluation.
  assert (zeros dead_end < 7) as H2 by (vm_compute; lia).
  split; [done|]. exact (solve_depth_bounded dead_end 7 H1 H2).
Defined.

Lemma keeps_givens_solved grid soln :
  isSolved grid = true → keeps_givens grid soln →
  length soln = length grid → soln = grid.
Proof.
  intros Hsolved%isSolved_Forall Hkeep Hlen. apply list_eq. intros i.
  destruct (grid !! i) as [v|] eqn:Hv.
  - apply Hkeep; [done|]. rewrite Forall_forall in Hsolved.
    apply Hsolved. by eapply list_elem_of_lookup_2.
  - apply lookup_ge_None in Hv. apply lookup_ge_None. lia.
Qed.

(** X8. A grid of 81 digits from 1 to 9, valid or not, comes back from
    [solve] as it is. *)
Theorem solve_filled_grid_unchanged (grid : list Z) :
  input_ok grid → isSolved grid = true → solve grid = Ok (Some grid).
Proof.
  intros Hin Hsolved.
  destruct (solve_spec grid Hin) as (s & r & Hs & Hr & Hout).
  rewrite Hr. f_equal.
  destruct (propagated_spec grid Hin) as (s' & Hs' & Hok & _ & Hev & _).
  rewrite Hs in Hs'. injection Hs' as <-.
  assert (val <$> s = grid) as Hvals.
  { apply keeps_givens_solved; [done|by apply evolves_keeps_givens|].
    rewrite length_fmap. destruct Hok as [-> _]. by destruct Hin as [-> _]. }
  destruct r as [soln|]; simpl in Hout.
  - destruct Hout as (_ & [Hlen _] & Hkeep & _). f_equal.
    apply keeps_givens_solved; [done..|]. by destruct Hin as [-> _].
  - exfalso. unfold invalid_state in Hout.
    apply existsb_exists in Hout as (sq & Hsq%list_elem_of_In & Hb).
    apply bool_decide_eq_true in Hb as [H0 _].
    apply isSolved_Forall in Hsolved. rewrite <-Hvals in Hsolved.
    rewrite Forall_fmap, Forall_forall in Hsolved. by apply (Hsolved sq).
Qed.

Lemma solve_filled_grid_unchanged_witness :
  (input_ok all_ones ∧ isSolved all_ones = true)
  ∧ solve all_ones = Ok (Some all_ones).
Proof.
  assert (input_ok all_ones) as H1 by by_evaluation.
  assert (isSolved all_ones = true) as H2 by reflexivity.
  split; [done|]. exact (solve_filled_grid_unchanged all_ones H1 H2).
Defined.

(** ** The dictionary of a group *)

Lemma tally_snoc cells x :
  tally (cells ++ [x]) =
  Some (match tally cells with Some (n, first) => (S n, first) | None => (1, x) end).
Proof.
  destruct cells as [|c cells]; simpl; [done|].
  rewrite length_app. simpl. do 2 f_equal. lia.
Qed.

Lemma count_square_options index (L : list Z) (data : gmap Z (nat * nat)) k :
  NoDup L →
  foldl (λ (data : gmap Z (nat * nat)) option,
    match data !! option with
    | Some (n, first) => <[option := (S n, first)]> data
    | None => <[option := (1, index)]> data
    end) data L !! k
  = if decide (k ∈ L)
    then Some (match data !! k with
               | Some (n, first) => (S n, first)
               | None => (1, index)
               end)
    else data !! k.
Proof.
  revert data. induction L as [|o L IH]; intros data Hnd; simpl; [done|].
  apply NoDup_cons in Hnd as [Ho Hnd]. rewrite IH by done.
  destruct (decide (k = o)) as [->|Hko].
  - rewrite decide_False by done. rewrite decide_True by by left.
    destruct (data !! o) as [[n first]|]; by rewrite lookup_insert_eq.
  - assert ((match data !! o with
             | Some (n, first) => <[o := (S n, first)]> data
             | None => <[o := (1, index)]> data
             end) !! k = data !! k) as ->.
    { destruct (data !! o) as [[n first]|]; by rewrite lookup_insert_ne. }
    assert (k ∈ o :: L ↔ k ∈ L) as Hiff by (rewrite elem_of_cons; tauto).
    repeat case_decide; tauto.
Qed.

Lemma count_options_tally (sudoku : list square) (group : list nat) :
  (∀ i, i ∈ group → i < length sudoku) →
  ∃ data,
    count_options sudoku group = Ok data
    ∧ ∀ k, data !! k = tally (filter (admits sudoku k) group).
Proof.
  intros Hgroup. unfold count_options.
  edestruct (for__invariant (λ (seen : list nat) (data : gmap Z (nat * nat)),
      ∀ k, data !! k = tally (filter (admits sudoku k) seen)))
    as (data & Hfor & Hdata); [| |by exists data].
  - intros k. by rewrite lookup_empty.
  - intros seen x post data -> Hd.
    destruct (lookup_lt_is_Some_2 sudoku x) as [sq Hsq].
    { apply Hgroup. rewrite elem_of_app, elem_of_cons. tauto. }
    rewrite (getitem_Some _ _ _ Hsq). simpl.
    assert (∀ k, admits sudoku k x ↔ val sq = 0%Z ∧ k ∈ opts sq) as Hadm.
    { intros k. unfold admits. rewrite Hsq. naive_solver. }
    case_decide as H0.
    + eexists. split; [done|]. intros k.
      rewrite count_square_options by apply NoDup_set_iter.
      rewrite filter_app, Hd. case_decide as Hk.
      * rewrite filter_cons_True, filter_nil, tally_snoc; [done|].
        apply Hadm. by rewrite <-elem_of_set_iter.
      * rewrite filter_cons_False, filter_nil, app_nil_r; [done|].
        rewrite Hadm, <-elem_of_set_iter. tauto.
    + eexists. split; [done|]. intros k.
      rewrite filter_app, filter_cons_False, filter_nil, app_nil_r; [done|].
      rewrite Hadm. tauto.
Qed.

(** X9. For a group of squares of the grid, the dictionary [data] of the
    second half of [propagate] has an entry for exactly the values that
    some square of the group without a value admits; the entry holds the
    number of such squares and the first of them in the order of the
    group. *)
Theorem count_options_tallies_group (sudoku : list square) (group : list nat) :
  (∀ i, i ∈ group → i < length sudoku) →
  ∃ data,
    count_options sudoku group = Ok data
    ∧ ∀ k, data !! k = tally (filter (admits sudoku k) group).
Proof. apply count_options_tally. Qed.

Lemma count_options_tallies_group_witness :
  (∀ i, i ∈ getBox 6 → i < length late_single_pruned)
  ∧ ∃ data,
      count_options late_single_pruned (getBox 6) = Ok data
      ∧ ∀ k, data !! k = tally (filter (admits late_single_pruned k) (getBox 6)).
Proof.
  assert (∀ i, i ∈ getBox 6 → i < length late_single_pruned) as H1.
  { intros i Hi. assert (length late_single_pruned = 81) as -> by reflexivity.
    apply (group_lt getBox 6 i); [by left|apply elem_of_seq; simpl; lia|done]. }
  split; [exact H1|].
  exact (count_options_tallies_group late_single_pruned (getBox 6) H1).
Defined.

(** ** Puzzles that have a solution *)

(** Partial correctness of a loop from an invariant. *)
Lemma for__partial {A S : Type} (I : list A → S → Prop)
    (body : S → A → result S) (l : list A) (s0 s' : S) :
  I [] s0 →
  (∀ pre x post s s1, l = pre ++ x :: post → I pre s → body s x = Ok s1 →
     I (pre ++ [x]) s1) →
  for_ l body s0 = Ok s' → I l s'.
Proof.
  revert I s0. induction l as [|x l IH]; intros I s0 H0 Hstep; simpl.
  - by intros [= <-].
  - intros (s1 & Hs1 & Hfor)%bind_Ok.
    apply (IH (λ pre s, I (x :: pre) s) s1); [|  |done].
    + by apply (Hstep [] x l s0 s1).
    + intros pre y post s s2 -> Hpre Hy.
      by apply (Hstep (x :: pre) y post s s2).
Qed.

Lemma group_in_groups (constraint : nat → list nat) g :
  constraint ∈ [getBox; getRow; getCol] → g < 9 → constraint g ∈ groups.
Proof.
  intros Hc Hg. unfold groups. rewrite !elem_of_app.
  assert (g ∈ seq 0 9) as Hin by (apply elem_of_seq; lia).
  rewrite !elem_of_cons, elem_of_nil in Hc. destruct Hc as [->|[->|[->|[]]]].
  - right. right. by apply list_elem_of_fmap_2.
  - left. by apply list_elem_of_fmap_2.
  - right. left. by apply list_elem_of_fmap_2.
Qed.

Lemma peers_share_group i j :
  i < 81 → j ∈ peers i → ∃ group, group ∈ groups ∧ i ∈ group ∧ j ∈ group.
Proof.
  intros Hi Hj. pose proof (peers_lt _ _ Hi Hj) as Hj81.
  rewrite elem_of_peers in Hj by done. destruct Hj as [_ [Hb|[Hr|Hc]]].
  - exists (getBox (toBox i)). split_and!.
    + apply group_in_groups; [|by apply toBox_lt].
      rewrite !elem_of_cons. tauto.
    + rewrite getBox_members by (by apply toBox_lt). by apply elem_of_members.
    + rewrite getBox_members by (by apply toBox_lt). by apply elem_of_members.
  - exists (getRow (toRow i)). split_and!.
    + apply group_in_groups; [|by apply toRow_lt].
      rewrite !elem_of_cons. tauto.
    + rewrite getRow_members by (by apply toRow_lt). by apply elem_of_members.
    + rewrite getRow_members by (by apply toRow_lt). by apply elem_of_members.
  - exists (getCol (toCol i)). split_and!.
    + apply group_in_groups; [|by apply toCol_lt].
      rewrite !elem_of_cons. tauto.
    + rewrite getCol_members by (by apply toCol_lt). by apply elem_of_members.
    + rewrite getCol_members by (by apply toCol_lt). by apply elem_of_members.
Qed.

Lemma first_solved_finds rec s gs :
  (∀ i v, (i, v) ∈ gs → ∃ r, rec (<[i := v]> (val <$> s)) = Ok r) →
  (∃ i v r, (i, v) ∈ gs ∧ rec (<[i := v]> (val <$> s)) = Ok r
            ∧ solved_by r = true) →
  ∃ r, first_solved rec s gs = Ok r ∧ solved_by r = true.
Proof.
  induction gs as [|[i v] gs IH]; intros Hall (j & w & r & Hin & Hr & Hs).
  { by apply elem_of_nil in Hin. }
  simpl. destruct (Hall i v) as [r' Hr']; [by left|]. rewrite Hr'. simpl.
  destruct (solved_by r') eqn:Hs'; [by exists r'|].
  apply IH.
  - intros i' v' Hin'. apply Hall. by right.
  - apply elem_of_cons in Hin as [[= -> ->]|Hin]; [congruence|].
    by exists j, w, r.
Qed.

Section solution.
Variable G : list Z.
Hypothesis HGlen : length G = 81.
Hypothesis HGvalid : valid_grid G.

Lemma solution_group group :
  group ∈ groups → set_iter digits ≡ₚ group_values G group.
Proof using HGvalid.
  intros Hg. unfold valid_grid in HGvalid. rewrite Forall_forall in HGvalid.
  pose proof (HGvalid group Hg) as Honce. rewrite Forall_forall in Honce.
  pose proof groups_facts as Hfacts. rewrite Forall_forall in Hfacts.
  destruct (Hfacts group Hg) as (_ & Hlen & _).
  apply submseteq_length_Permutation.
  - apply NoDup_submseteq; [apply NoDup_set_iter|].
    intros v Hv. specialize (Honce v Hv). unfold once in Honce.
    destruct (filter (λ x, x = v) (group_values G group)) as [|w ws] eqn:Hf;
      [done|].
    assert (w ∈ filter (λ x, x = v) (group_values G group)) as Hw
      by (rewrite Hf; by left).
    apply list_elem_of_filter in Hw as [-> Hw]. done.
  - unfold group_values. rewrite length_fmap, Hlen. by vm_compute.
Qed.

Lemma solution_digit j : j < 81 → ∃ g, G !! j = Some g ∧ g ∈ digits.
Proof using HGlen HGvalid.
  intros Hj. destruct (lookup_lt_is_Some_2 G j) as [g Hg]; [lia|].
  exists g. split; [done|].
  destruct (peers_share_group j j Hj (peers_refl j Hj)) as (group & Hgr & Hjg & _).
  apply elem_of_set_iter. rewrite (solution_group group Hgr).
  unfold group_values. apply list_elem_of_fmap. exists j. by rewrite Hg.
Qed.

Lemma solution_no_conflict : no_conflict G.
Proof using HGlen HGvalid.
  intros i j vi vj Hi Hj Hp Hij Hne ->.
  assert (i < 81) as Hi81 by (apply lookup_lt_Some in Hi; lia).
  destruct (peers_share_group i j Hi81 Hp) as (group & Hgr & Hig & Hjg).
  destruct (solution_digit i Hi81) as (g & Hg & Hgd). simplify_eq.
  unfold valid_grid in HGvalid. rewrite Forall_forall in HGvalid.
  pose proof (HGvalid group Hgr) as Honce. rewrite Forall_forall in Honce.
  apply (twice_not_once (λ i, default 0%Z (G !! i)) group i j vj);
    try done.
  - by rewrite Hi.
  - by rewrite Hj.
  - apply Honce. by apply elem_of_set_iter.
Qed.

Lemma solution_place group k :
  group ∈ groups → k ∈ digits → ∃ c, c ∈ group ∧ G !! c = Some k.
Proof using HGlen HGvalid.
  intros Hgr Hk. apply elem_of_set_iter in Hk.
  rewrite (solution_group group Hgr) in Hk.
  apply list_elem_of_fmap in Hk as (c & Hc & Hin). exists c. split; [done|].
  pose proof groups_facts as Hfacts. rewrite Forall_forall in Hfacts.
  destruct (Hfacts group Hgr) as (_ & _ & Hall). rewrite Forall_forall in Hall.
  destruct (Hall c Hin) as [Hc81 _].
  destruct (solution_digit c Hc81) as (g & Hg & _). rewrite Hg in Hc |- *.
  simpl in Hc. by subst.
Qed.

Lemma agrees_mkGrid grid :
  input_ok grid → keeps_givens grid G → agrees G (mkGrid grid).
Proof using HGlen HGvalid.
  intros [Hlen _] Hkeep j sq Hsq.
  assert (j < 81) as Hj.
  { apply lookup_lt_Some in Hsq. unfold mkGrid in Hsq.
    rewrite length_fmap in Hsq. lia. }
  destruct (mkGrid_lookup _ _ _ Hsq) as [Hg Ho].
  destruct (solution_digit j Hj) as (g & HGj & Hgd). exists g.
  split; [done|]. split.
  - intros Hne. specialize (Hkeep j (val sq) Hg Hne). congruence.
  - intros H0. rewrite Ho, decide_True by done. done.
Qed.

Lemma agrees_prune s s' :
  length s = 81 → agrees G s → prune s = Ok s' → agrees G s'.
Proof using HGlen HGvalid.
  intros Hlen Hag Hp j sq' Hsq'.
  destruct (prune_spec s Hlen) as (s'' & Hp' & Hlen' & Hs').
  rewrite Hp in Hp'. injection Hp' as <-.
  destruct (lookup_lt_is_Some_2 s j) as [sq Hsq].
  { apply lookup_lt_Some in Hsq'. lia. }
  destruct (Hs' j sq Hsq) as (sq'' & Hsq'' & Hv & Hfix & Hopen).
  simplify_eq. destruct (Hag j sq Hsq) as (g & Hg & Hgv & Hgo).
  exists g. split; [done|]. rewrite Hv. split; [done|].
  intros H0. apply (Hopen H0). split; [auto|].
  assert (j < 81) as Hj by (apply lookup_lt_Some in Hsq; lia).
  destruct (solution_digit j Hj) as (g' & Hg' & Hgd). simplify_eq.
  split; [done|]. intros i sqi Hsqi Hne Hp'.
  destruct (Hag i sqi Hsqi) as (gi & Hgi & Hgiv & _).
  rewrite (Hgiv Hne). intros ->.
  apply (solution_no_conflict j i g g); try done; [congruence|].
  rewrite <-(Hgiv Hne). done.
Qed.

Lemma agrees_assigned s s' idx v :
  grid_ok s → idx < 81 → assigned s idx v s' → G !! idx = Some v →
  agrees G s → agrees G s'.
Proof using HGlen HGvalid.
  intros Hok Hidx (Hlen' & Hidx' & Hoth) HGidx Hag j sq' Hsq'.
  destruct (solution_digit idx Hidx) as (v' & Hv' & Hvd). simplify_eq.
  destruct (decide (j = idx)) as [->|Hj].
  - rewrite Hidx' in Hsq'. injection Hsq' as <-. exists v. simpl.
    split_and!; [done..|]. intros ->. apply elem_of_digits in Hvd. lia.
  - destruct (lookup_lt_is_Some_2 s j) as [sq Hsq].
    { destruct Hok as [-> _]. apply lookup_lt_Some in Hsq'. lia. }
    rewrite (Hoth j sq Hj Hsq) in Hsq'. injection Hsq' as <-.
    destruct (Hag j sq Hsq) as (g & Hg & Hgv & Hgo). exists g.
    split; [done|]. case_decide as Hp; [|done].
    rewrite strike_val. split; [done|]. intros H0. unfold strike.
    rewrite decide_True by done. simpl.
    apply elem_of_difference. split; [auto|].
    rewrite elem_of_singleton. intros ->.
    apply (solution_no_conflict idx j v v); try done.
    all: try congruence.
    all: apply elem_of_digits in Hvd; try lia.
Qed.

Lemma agrees_naked_singles s log r :
  grid_ok s → agrees G s → naked_singles s log = Ok r →
  grid_ok r.1.1 ∧ agrees G r.1.1.
Proof using HGlen HGvalid.
  intros Hok Hag Hn. unfold naked_singles in Hn.
  apply (for__partial (λ _ (st : list square * bool * list event),
           grid_ok st.1.1 ∧ agrees G st.1.1)) in Hn; [done|done|].
  intros pre x post [[sm ch] lg] s1 _ [Hokm Hagm] Hbody. simpl in *.
  apply bind_Ok in Hbody as (sq & Hsq%getitem_Ok & Hbody).
  case_decide as Hsz; [|by simplify_eq].
  destruct (set_pop_singleton _ Hsz) as (v & Hv & Hpop).
  rewrite Hpop in Hbody. simpl in Hbody.
  apply bind_Ok in Hbody as (s2 & Hup & [= <-]). simpl.
  pose proof (grid_ok_lookup _ _ _ Hokm Hsq) as (_ & Hsub & Hfix).
  pose proof (grid_ok_lt _ _ _ Hokm Hsq) as Hx.
  assert (val sq = 0%Z) as H0.
  { destruct (decide (val sq = 0%Z)) as [|Hne]; [done|].
    rewrite (Hfix Hne) in Hv. set_solver. }
  assert (v ∈ digits) as Hvd by (apply Hsub; rewrite Hv; set_solver).
  destruct (assign_spec sm x v ∅) as (s2' & Hup' & Hlen2 & Hx2 & Hoth);
    [apply Hokm|done|apply elem_of_digits in Hvd; lia|].
  rewrite Hup in Hup'. injection Hup' as <-.
  assert (assigned sm x v s2) as Has by done.
  destruct (Hagm x sq Hsq) as (g & Hg & _ & Hgo).
  specialize (Hgo H0). rewrite Hv, elem_of_singleton in Hgo. subst g.
  split; [|by apply (agrees_assigned sm s2 x v)].
  by apply (assigned_grid_ok sm s2 x v).
Qed.

Lemma agrees_hidden_singles_group group s log r :
  grid_ok s → pruned s → agrees G s → group ∈ groups →
  hidden_singles_group group (s, log) = Ok r →
  agrees G r.1.
Proof using HGlen HGvalid.
  intros Hok Hpr Hag Hgr Hh. unfold hidden_singles_group in Hh. simpl in Hh.
  pose proof groups_facts as Hfacts. rewrite Forall_forall in Hfacts.
  destruct (Hfacts group Hgr) as (_ & _ & Hall). rewrite Forall_forall in Hall.
  destruct (count_options_tally s group) as (data & Hdata & Htally).
  { intros i Hi. destruct Hok as [-> _]. by apply Hall. }
  rewrite Hdata in Hh. simpl in Hh.
  apply (for__partial (λ _ (st : list square * list event),
           grid_ok st.1 ∧ agrees G st.1)) in Hh; [apply Hh|done|].
  intros pre k post [sm lg] s1 _ [Hokm Hagm] Hbody. simpl in *.
  destruct (data !! k) as [[n t]|] eqn:Hk; [|done].
  case_decide as Hn; [|by simplify_eq]. subst n.
  apply bind_Ok in Hbody as (sqt & Hsqt%getitem_Ok & Hbody).
  apply bind_Ok in Hbody as (s2 & Hup & [= <-]). simpl.
  rewrite Htally in Hk.
  destruct (filter (admits s k) group) as [|t' rest] eqn:Hf; [done|].
  simpl in Hk. injection Hk as Hrest ->.
  destruct rest; [|done].
  assert (t ∈ filter (admits s k) group) as Ht by (rewrite Hf; by left).
  apply list_elem_of_filter in Ht as [(sq0 & Hsq0 & H0 & Hkin) Htg].
  pose proof (grid_ok_lookup _ _ _ Hok Hsq0) as (_ & Hsub & _).
  assert (k ∈ digits) as Hkd by auto.
  destruct (Hall t Htg) as [Ht81 Hpeers]. rewrite Forall_forall in Hpeers.
  assert (G !! t = Some k) as HGt.
  { destruct (solution_place group k Hgr Hkd) as (c & Hcg & HGc).
    destruct (Hall c Hcg) as [Hc81 _].
    destruct (lookup_lt_is_Some_2 s c) as [sqc Hsqc];
      [destruct Hok as [-> _]; lia|].
    destruct (Hag c sqc Hsqc) as (g & Hg & Hgv & Hgo). simplify_eq.
    destruct (decide (c = t)) as [->|Hct]; [done|].
    destruct (decide (val sqc = 0%Z)) as [Hc0|Hcne].
    - assert (c ∈ filter (admits s k) group) as Hc.
      { apply list_elem_of_filter. split; [|done]. exists sqc. auto. }
      rewrite Hf, list_elem_of_singleton in Hc. done.
    - exfalso. apply (Hpr t c sq0 sqc Hsq0 Hsqc); [by apply Hpeers|done..|].
      by rewrite (Hgv Hcne). }
  destruct (assign_spec sm t k ∅) as (s2' & Hup' & Hlen2 & Hx2 & Hoth);
    [apply Hokm|done|apply elem_of_digits in Hkd; lia|].
  rewrite Hup in Hup'. injection Hup' as <-.
  assert (assigned sm t k s2) as Has by done.
  split; [|by apply (agrees_assigned sm s2 t k)].
  by apply (assigned_grid_ok sm s2 t k).
Qed.

Lemma agrees_hidden_singles s log r :
  grid_ok s → pruned s → agrees G s → hidden_singles (s, log) = Ok r →
  grid_ok r.1 ∧ pruned r.1 ∧ agrees G r.1.
Proof using HGlen HGvalid.
  intros Hok Hpr Hag Hh. unfold hidden_singles in Hh.
  apply (for__partial (λ _ (st : list square * list event),
           grid_ok st.1 ∧ pruned st.1 ∧ agrees G st.1)) in Hh; [done|done|].
  intros pre constraint post st st1 Hc Hst Hinner.
  assert (constraint ∈ [getBox; getRow; getCol]) as Hcin.
  { rewrite Hc, elem_of_app, elem_of_cons. tauto. }
  apply (for__partial (λ _ (st : list square * list event),
           grid_ok st.1 ∧ pruned st.1 ∧ agrees G st.1)) in Hinner;
    [done|done|].
  intros pre' i post' [sm lg] st2 Hi (Hokm & Hprm & Hagm) Hbody. simpl in *.
  assert (i ∈ range 0 9) as Hiin.
  { rewrite Hi, elem_of_app, elem_of_cons. tauto. }
  destruct (hidden_singles_group_spec (constraint i) sm lg Hokm)
    as (s' & log' & Hspec & Hinv).
  { intros j. by apply group_lt. }
  rewrite Hbody in Hspec. injection Hspec as ->. simpl.
  split; [apply Hinv|]. split; [by apply Hinv|].
  apply (agrees_hidden_singles_group (constraint i) sm lg (s', lg ++ log'));
    try done.
  apply group_in_groups; [done|]. apply elem_of_seq in Hiin. simpl in Hiin. lia.
Qed.

Lemma agrees_propagate_loop fuel s log r :
  grid_ok s → agrees G s → propagate_loop fuel s log = Ok r → agrees G r.1.
Proof using HGlen HGvalid.
  revert s log. induction fuel as [|fuel IH]; intros s log Hok Hag; [done|].
  simpl. intros ([[s1 ch] l1] & Hn & Hrest)%bind_Ok.
  destruct (agrees_naked_singles s log _ Hok Hag Hn) as [Hok1 Hag1].
  simpl in *. apply bind_Ok in Hrest as (s2 & Hp & Hrest).
  destruct (prune_step_inv s1 Hok1) as (s2' & Hp' & Hinv2 & Hpr2 & _).
  rewrite Hp in Hp'. injection Hp' as <-.
  pose proof (agrees_prune s1 s2 (proj1 Hok1) Hag1 Hp) as Hag2.
  apply bind_Ok in Hrest as ([s3 l3] & Hh & Hrest).
  destruct (agrees_hidden_singles s2 l1 _ (si_ok _ _ _ Hinv2) Hpr2 Hag2 Hh)
    as (Hok3 & _ & Hag3). simpl in *.
  destruct ch; [by apply (IH s3 l3)|]. by injection Hrest as <-.
Qed.

Lemma agrees_propagated grid s :
  input_ok grid → keeps_givens grid G → propagated grid = Ok s → agrees G s.
Proof using HGlen HGvalid.
  intros Hin Hkeep. unfold propagated.
  intros (s1 & Hp & Hrest)%bind_Ok.
  apply bind_Ok in Hrest as (? & _ & Hrest).
  unfold propagate in Hrest. apply bind_Ok in Hrest as (st & Hlog & [= <-]).
  pose proof (mkGrid_ok grid Hin) as Hok.
  destruct (prune_step_inv _ Hok) as (s1' & Hp' & Hinv1 & _).
  rewrite Hp in Hp'. injection Hp' as <-.
  unfold propagate_log in Hlog.
  eapply (agrees_propagate_loop _ s1 [] st (si_ok _ _ _ Hinv1)); [|exact Hlog].
  apply (agrees_prune (mkGrid grid)); [apply Hok| |done].
  by apply agrees_mkGrid.
Qed.

Lemma agrees_not_invalid s : agrees G s → invalid_state s = false.
Proof using HGlen HGvalid.
  intros Hag. unfold invalid_state. apply not_true_is_false.
  intros (sq & Hin & Hsq)%existsb_exists.
  apply bool_decide_eq_true in Hsq as [H0 Hsz].
  apply list_elem_of_In, list_elem_of_lookup in Hin as [j Hj].
  destruct (Hag j sq Hj) as (g & _ & _ & Hgo).
  apply size_empty_inv in Hsz. specialize (Hgo H0). set_solver.
Qed.

Lemma solve_fuel_complete fuel grid :
  input_ok grid → keeps_givens grid G → zeros grid < fuel →
  ∃ soln, solve_fuel fuel grid = Ok (Some soln) ∧ isSolved soln = true.
Proof using HGlen HGvalid.
  revert grid. induction fuel as [|fuel IH]; intros grid Hin Hkeep Hfuel; [lia|].
  destruct (propagated_spec grid Hin) as (s & Hs & Hok & Hpr & Hev & _).
  pose proof (agrees_propagated grid s Hin Hkeep Hs) as Hag.
  rewrite solve_fuel_unfold, Hs. simpl.
  rewrite (agrees_not_invalid s Hag).
  pose proof (evolves_zeros _ _ Hev) as Hz. rewrite mkGrid_val in Hz.
  assert (∀ i v, (i, v) ∈ guesses s →
    ∃ r, solve_fuel fuel (<[i := v]> (val <$> s)) = Ok r) as Hall.
  { intros i v (sq & Hsq & H0 & Hv)%elem_of_guesses.
    destruct (branch_spec s i sq v Hok Hpr Hsq H0 Hv) as (Hbin & Hbz & _).
    destruct (solve_fuel_spec fuel (<[i := v]> (val <$> s)) Hbin)
      as (sb & r & _ & Hr & _); [lia|]. by exists r. }
  destruct (decide (Forall (λ sq, val sq ≠ 0%Z) s)) as [Hfull|Hopen].
  - destruct (first_solved_spec (solve_fuel fuel) s (guesses s)
        (λ _ _ _, False)) as (found & -> & Hfound).
    { intros i v (sq & Hsq & H0 & _)%elem_of_guesses.
      rewrite Forall_lookup in Hfull. by destruct (Hfull i sq Hsq). }
    destruct found as [l|];
      [by destruct (Hfound l eq_refl) as (_ & ? & ? & _ & [])|].
    simpl. eexists. split; [done|]. apply isSolved_Forall.
    by apply Forall_fmap.
  - apply not_Forall_Exists in Hopen; [|apply _].
    apply Exists_exists in Hopen as (sq & Hin' & H0).
    apply dec_stable in H0.
    apply list_elem_of_lookup in Hin' as [i Hsq].
    destruct (Hag i sq Hsq) as (g & Hg & _ & Hgo). specialize (Hgo H0).
    destruct (branch_spec s i sq g Hok Hpr Hsq H0 Hgo) as (Hbin & Hbz & _).
    destruct (IH (<[i := g]> (val <$> s)) Hbin) as (l & Hl & Hsolved); [|lia|].
    { intros j w Hj Hw. destruct (decide (j = i)) as [->|Hji].
      - rewrite list_lookup_insert_eq in Hj; [by simplify_eq|].
        rewrite length_fmap. by eapply lookup_lt_Some.
      - rewrite list_lookup_insert_ne, list_lookup_fmap in Hj by done.
        destruct (s !! j) as [sqj|] eqn:Hsqj; [|done]. simpl in Hj.
        injection Hj as <-.
        destruct (Hag j sqj Hsqj) as (gj & Hgj & Hgv & _).
        by rewrite (Hgv Hw). }
    destruct (solve_fuel_spec fuel (<[i := g]> (val <$> s)) Hbin)
      as (sb & r & _ & Hr & Hout); [lia|].
    rewrite Hl in Hr. injection Hr as Hr. subst r.
    destruct Hout as (_ & [Hlen _] & _).
    destruct (first_solved_finds (solve_fuel fuel) s (guesses s) Hall)
      as (found & -> & Hfound).
    { exists i, g, (Some l). split; [apply elem_of_guesses; eauto|].
      split; [done|]. simpl. rewrite Hsolved. by destruct l. }
    simpl. destruct found as [l'|]; [|done]. simpl in *.
    exists l'. split; [done|]. by apply andb_true_iff in Hfound as [_ ?].
Qed.
End solution.

Lemma agrees_Forall2 (G : list Z) (s : list square) :
  Forall2 (λ g sq, (val sq ≠ 0%Z → val sq = g) ∧ (val sq = 0%Z → g ∈ opts sq))
    G s →
  agrees G s.
Proof.
  intros Hall j sq Hsq.
  destruct (Forall2_lookup_r _ _ _ _ _ Hall Hsq) as (g & Hg & Hv & Ho).
  by exists g.
Qed.

(** X10. [propagate] loses no solution: a valid completed grid [G] that
    agrees with the grid before (its values are those of [G], and each
    square without a value admits the digit of [G]) agrees with the grid
    that [propagate] returns. *)
Theorem propagate_keeps_solutions (sudoku : list square) (G : list Z) :
  grid_ok sudoku → length G = 81 → valid_grid G → agrees G sudoku →
  ∃ sudoku', propagate sudoku = Ok sudoku' ∧ agrees G sudoku'.
Proof.
  intros Hok HGlen HGvalid Hag.
  destruct (propagate_spec sudoku Hok) as (s' & log & Hp & _).
  exists s'. split; [done|]. unfold propagate in Hp.
  apply bind_Ok in Hp as (st & Hlog & [= <-]).
  unfold propagate_log in Hlog.
  exact (agrees_propagate_loop G HGlen HGvalid _ sudoku [] st Hok Hag Hlog).
Qed.

Lemma propagate_keeps_solutions_witness :
  grid_ok (mkGrid puzzle1) ∧ length solution1 = 81 ∧ valid_grid solution1
  ∧ agrees solution1 (mkGrid puzzle1)
  ∧ ∃ sudoku', propagate (mkGrid puzzle1) = Ok sudoku'
               ∧ agrees solution1 sudoku'.
Proof.
  assert (grid_ok (mkGrid puzzle1)) as H1 by by_evaluation.
  assert (length solution1 = 81) as H2 by reflexivity.
  assert (valid_grid solution1) as H3 by by_evaluation.
  assert (agrees solution1 (mkGrid puzzle1)) as H4
    by (apply agrees_Forall2; by_evaluation).
  split; [exact H1|]. split; [exact H2|]. split; [exact H3|].
  split; [exact H4|].
  exact (propagate_keeps_solutions (mkGrid puzzle1) solution1 H1 H2 H3 H4).
Defined.

(** X11. [prune] loses no solution either. *)
Theorem prune_keeps_solutions (sudoku : list square) (G : list Z) :
  length sudoku = 81 → length G = 81 → valid_grid G → agrees G sudoku →
  ∃ sudoku', prune sudoku = Ok sudoku' ∧ agrees G sudoku'.
Proof.
  intros Hlen HGlen HGvalid Hag.
  destruct (prune_spec sudoku Hlen) as (s' & Hp & _).
  exists s'. split; [done|]. by apply (agrees_prune G HGlen HGvalid sudoku).
Qed.

Lemma prune_keeps_solutions_witness :
  length (mkGrid puzzle1) = 81 ∧ length solution1 = 81 ∧ valid_grid solution1
  ∧ agrees solution1 (mkGrid puzzle1)
  ∧ ∃ sudoku', prune (mkGrid puzzle1) = Ok sudoku' ∧ agrees solution1 sudoku'.
Proof.
  assert (length (mkGrid puzzle1) = 81) as H1 by reflexivity.
  assert (length solution1 = 81) as H2 by reflexivity.
  assert (valid_grid solution1) as H3 by by_evaluation.
  assert (agrees solution1 (mkGrid puzzle1)) as H4
    by (apply agrees_Forall2; by_evaluation).
  split; [exact H1|]. split; [exact H2|]. split; [exact H3|].
  split; [exact H4|].
  exact (prune_keeps_solutions (mkGrid puzzle1) solution1 H1 H2 H3 H4).
Defined.

Lemma keeps_givens_Forall2 (grid soln : list Z) :
  Forall2 (λ a b, a = 0%Z ∨ a = b) grid soln → keeps_givens grid soln.
Proof.
  intros Hall i v Hi Hv.
  destruct (Forall2_lookup_l _ _ _ _ _ Hall Hi) as (w & Hw & [?| ->]); done.
Qed.

Lemma keeps_givens_insert (l G' : list Z) (i : nat) :
  Forall (λ v, v ≠ 0%Z) l → length G' = length l →
  keeps_givens (<[i := 0%Z]> l) G' →
  ∃ x, G' = <[i := x]> l.
Proof.
  intros Hall Hlen Hk. exists (default 0%Z (G' !! i)). apply list_eq. intros j.
  destruct (l !! j) as [v|] eqn:Hv.
  - destruct (decide (j = i)) as [->|Hj].
    + rewrite list_lookup_insert_eq by (by eapply lookup_lt_Some).
      destruct (lookup_lt_is_Some_2 G' i) as [x ->]; [|done].
      rewrite Hlen. by eapply lookup_lt_Some.
    + rewrite list_lookup_insert_ne, Hv by done. apply Hk.
      * by rewrite list_lookup_insert_ne.
      * rewrite Forall_lookup in Hall. by apply (Hall j).
  - apply lookup_ge_None in Hv. rewrite !lookup_ge_None_2; [done|..].
    + by rewrite length_insert.
    + lia.
Qed.

(** Completeness of the search. *)
Lemma solve_complete (grid G : list Z) :
  input_ok grid → length G = 81 → valid_grid G → keeps_givens grid G →
  ∃ soln, solve grid = Ok (Some soln) ∧ valid_grid soln
          ∧ keeps_givens grid soln.
Proof.
  intros Hin HGlen HGvalid Hkeep.
  destruct (solve_fuel_complete G HGlen HGvalid (S (length grid)) grid)
    as (soln & Hsoln & Hsolved); [done|done|pose proof (zeros_length grid); lia|].
  destruct (solve_spec grid Hin) as (s & r & _ & Hr & Hout).
  unfold solve in Hr. rewrite Hsoln in Hr. injection Hr as Hr. subst r.
  destruct Hout as (_ & Hsin & Hsk & Hnc & _).
  exists soln. split; [done|]. split; [|done].
  apply solved_valid; [done..|]. apply Hnc.
  intros i j vi vj Hi Hj Hp Hij Hne ->.
  apply (solution_no_conflict G HGlen HGvalid i j vj vj); try done.
  all: by apply Hkeep.
Qed.

(** X12. On a puzzle that has a solution, [solve] returns a completed grid:
    whenever some valid grid [G] keeps the givens of [grid], the result is
    a grid in which every row, column and box holds each digit once, and
    which keeps the givens. *)
Theorem solve_finds_a_solution (grid G : list Z) :
  input_ok grid → length G = 81 → valid_grid G → keeps_givens grid G →
  ∃ soln, solve grid = Ok (Some soln) ∧ valid_grid soln
          ∧ keeps_givens grid soln.
Proof. apply solve_complete. Qed.

Lemma solve_finds_a_solution_witness :
  input_ok puzzle1 ∧ length solution1 = 81 ∧ valid_grid solution1
  ∧ keeps_givens puzzle1 solution1
  ∧ ∃ soln, solve puzzle1 = Ok (Some soln) ∧ valid_grid soln
            ∧ keeps_givens puzzle1 soln.
Proof.
  assert (input_ok puzzle1) as H1 by by_evaluation.
  assert (length solution1 = 81) as H2 by reflexivity.
  assert (valid_grid solution1) as H3 by by_evaluation.
  assert (keeps_givens puzzle1 solution1) as H4
    by (apply keeps_givens_Forall2; by_evaluation).
  split; [exact H1|]. split; [exact H2|]. split; [exact H3|].
  split; [exact H4|]. exact (solve_finds_a_solution puzzle1 solution1 H1 H2 H3 H4).
Defined.

(** X13. On a puzzle with exactly one solution, [solve] returns that
    solution: if [G] is a valid grid that keeps the givens of [grid], and
    the only one, the result is [G]. *)
Theorem solve_returns_the_only_solution (grid G : list Z) :
  input_ok grid → length G = 81 → valid_grid G → keeps_givens grid G →
  (∀ G', length G' = 81 → valid_grid G' → keeps_givens grid G' → G' = G) →
  solve grid = Ok (Some G).
Proof.
  intros Hin HGlen HGvalid Hkeep Honly.
  destruct (solve_complete grid G Hin HGlen HGvalid Hkeep)
    as (soln & Hsoln & Hvalid & Hk).
  destruct (solve_spec grid Hin) as (s & r & _ & Hr & Hout).
  rewrite Hsoln in Hr. injection Hr as Hr. subst r.
  destruct Hout as (_ & [Hlen _] & _).
  by rewrite <-(Honly soln Hlen Hvalid Hk).
Qed.

Lemma solve_returns_the_only_solution_witness :
  input_ok last_open ∧ length solution1 = 81 ∧ valid_grid solution1
  ∧ keeps_givens last_open solution1
  ∧ (∀ G', length G' = 81 → valid_grid G' → keeps_givens last_open G' →
           G' = solution1)
  ∧ solve last_open = Ok (Some solution1).
Proof.
  assert (input_ok last_open) as H1 by by_evaluation.
  assert (length solution1 = 81) as H2 by reflexivity.
  assert (valid_grid solution1) as H3 by by_evaluation.
  assert (keeps_givens last_open solution1) as H4
    by (apply keeps_givens_Forall2; by_evaluation).
  assert (∀ G', length G' = 81 → valid_grid G' → keeps_givens last_open G' →
                G' = solution1) as H5.
  { intros G' Hlen Hvalid Hk.
    destruct (keeps_givens_insert solution1 G' 80) as [x ->];
      [by_evaluation|done|done|].
    destruct (solution_digit _ Hlen Hvalid 80) as (g & Hg & Hgd); [lia|].
    injection Hg as <-. apply elem_of_digits in Hgd.
    assert (x = 1 ∨ x = 2 ∨ x = 3 ∨ x = 4 ∨ x = 5 ∨ x = 6 ∨ x = 7 ∨ x = 8
            ∨ x = 9)%Z as Hx by lia.
    destruct_or!; subst x; try reflexivity; exfalso;
      revert Hvalid; apply (bool_decide_eq_false_1 _); by vm_compute. }
  split; [exact H1|]. split; [exact H2|]. split; [exact H3|].
  split; [exact H4|]. split; [exact H5|].
  exact (solve_returns_the_only_solution last_open solution1 H1 H2 H3 H4 H5).
Defined.

(** ** Grids of the wrong length *)

Lemma index_checked_bind {A B : Type} (P : A → Prop) (Q : B → Prop)
    (m : result A) (f : A → result B) :
  index_checked P m → (∀ a, P a → index_checked Q (f a)) →
  index_checked Q (m ≫= f).
Proof. intros [->|(a & -> & Ha)] Hf; [by left|]. by apply Hf. Qed.

Lemma index_checked_Ok {A : Type} (P : A → Prop) (a : A) :
  P a → index_checked P (Ok a).
Proof. intros Ha. right. by exists a. Qed.

Lemma index_checked_getitem {A : Type} (l : list A) (i : nat) :
  index_checked (λ x, l !! i = Some x) (getitem l i).
Proof.
  unfold getitem. destruct (l !! i) as [x|]; [|by left]. right. by exists x.
Qed.

Lemma index_checked_for {A S : Type} (I : S → Prop)
    (body : S → A → result S) (l : list A) (s0 : S) :
  I s0 → (∀ s y, y ∈ l → I s → index_checked I (body s y)) →
  index_checked I (for_ l body s0).
Proof.
  revert s0. induction l as [|x l IH]; intros s0 H0 Hbody; simpl.
  - by apply index_checked_Ok.
  - apply (index_checked_bind I); [apply Hbody; [by left|done]|].
    intros s1 H1. apply IH; [done|]. intros s y Hy. apply Hbody. by right.
Qed.

(** A loop whose body fails at [x] fails. *)
Lemma for__raises {A S : Type} (I : S → Prop)
    (body : S → A → result S) (l : list A) (s0 : S) (x : A) :
  I s0 → (∀ s y, y ∈ l → I s → index_checked I (body s y)) →
  x ∈ l → (∀ s, I s → body s x = Raise IndexError) →
  for_ l body s0 = Raise IndexError.
Proof.
  revert s0. induction l as [|y l IH]; intros s0 H0 Hbody Hx Hraise.
  { by apply elem_of_nil in Hx. }
  simpl. apply elem_of_cons in Hx as [->|Hx].
  { by rewrite Hraise. }
  destruct (Hbody s0 y) as [->|(s1 & -> & H1)]; [by left|done..|].
  simpl. apply IH; [done| |done..]. intros s z Hz. apply Hbody. by right.
Qed.

Lemma updateConstraints_checked s idx v :
  index_checked (λ s', length s' = length s) (updateConstraints s idx v).
Proof.
  unfold updateConstraints.
  apply (index_checked_for (λ s', length s' = length s)); [done|].
  intros s1 [key get] _ H1.
  apply (index_checked_for (λ s', length s' = length s)); [done|].
  intros s2 i _ H2.
  apply (index_checked_bind _ _ _ _ (index_checked_getitem s2 i)).
  intros sq _. case_decide; apply index_checked_Ok; [|done].
  by rewrite length_insert.
Qed.

Lemma prune_collect_checked s :
  index_checked (λ st, length st.1.1 = 9 ∧ length st.1.2 = 9 ∧ length st.2 = 9)
    (prune_collect s).
Proof.
  unfold prune_collect.
  apply (index_checked_for
    (λ st : list (gset Z) * list (gset Z) * list (gset Z),
       length st.1.1 = 9 ∧ length st.1.2 = 9 ∧ length st.2 = 9)); [done|].
  intros [[rows cols] boxes] i _ (Hr & Hc & Hb). simpl in *.
  apply (index_checked_bind _ _ _ _ (index_checked_getitem s i)).
  intros sq _. case_decide; [|by apply index_checked_Ok].
  apply (index_checked_bind _ _ _ _ (index_checked_getitem rows _)).
  intros r _.
  apply (index_checked_bind _ _ _ _ (index_checked_getitem cols _)).
  intros c _.
  apply (index_checked_bind _ _ _ _ (index_checked_getitem boxes _)).
  intros b _. apply index_checked_Ok. simpl. by rewrite !length_insert.
Qed.

Lemma prune_checked s :
  index_checked (λ s', length s' = length s) (prune s).
Proof.
  unfold prune.
  apply (index_checked_bind _ _ _ _ (prune_collect_checked s)).
  intros [[rows cols] boxes] _.
  apply (index_checked_for (λ s', length s' = length s)); [done|].
  intros s1 i _ H1.
  apply (index_checked_bind _ _ _ _ (index_checked_getitem s1 i)).
  intros sq _. case_decide; [|by apply index_checked_Ok].
  apply (index_checked_bind _ _ _ _ (index_checked_getitem rows _)).
  intros r _.
  apply (index_checked_bind _ _ _ _ (index_checked_getitem cols _)).
  intros c _.
  apply (index_checked_bind _ _ _ _ (index_checked_getitem boxes _)).
  intros b _. apply index_checked_Ok. by rewrite length_insert.
Qed.

Lemma naked_singles_checked s log :
  index_checked (λ r, length r.1.1 = length s) (naked_singles s log).
Proof.
  unfold naked_singles.
  apply (index_checked_for (λ r : list square * bool * list event,
           length r.1.1 = length s)); [done|].
  intros [[s1 ch] lg] i _ H1. simpl in *.
  apply (index_checked_bind _ _ _ _ (index_checked_getitem s1 i)).
  intros sq _. case_decide as Hsz; [|by apply index_checked_Ok].
  destruct (set_pop_singleton _ Hsz) as (v & _ & ->). simpl.
  apply (index_checked_bind (λ s', length s' = length s)).
  - destruct (updateConstraints_checked (<[i := Square v ∅]> s1) i v)
      as [->|(s2 & -> & H2)]; [by left|].
    apply index_checked_Ok. by rewrite H2, length_insert.
  - intros s2 H2. by apply index_checked_Ok.
Qed.

Lemma count_options_checked s group :
  index_checked (λ _, True) (count_options s group).
Proof.
  unfold count_options. apply (index_checked_for (λ _, True)); [done|].
  intros data i _ _.
  apply (index_checked_bind _ _ _ _ (index_checked_getitem s i)).
  intros sq _. by case_decide; apply index_checked_Ok.
Qed.

Lemma count_options_raises s group i :
  i ∈ group → length s ≤ i → count_options s group = Raise IndexError.
Proof.
  intros Hi Hlen. unfold count_options.
  apply (for__raises (λ _, True) _ _ _ i); [done| |done|].
  - intros data j _ _.
    apply (index_checked_bind _ _ _ _ (index_checked_getitem s j)).
    intros sq _. by case_decide; apply index_checked_Ok.
  - intros data _. unfold getitem. by rewrite lookup_ge_None_2.
Qed.

Lemma hidden_singles_group_checked group st :
  index_checked (λ r, length r.1 = length st.1) (hidden_singles_group group st).
Proof.
  unfold hidden_singles_group.
  apply (index_checked_bind _ _ _ _ (count_options_checked st.1 group)).
  intros data _.
  apply (index_checked_for (λ r : list square * list event,
           length r.1 = length st.1)); [done|].
  intros [s1 lg] key [[n idx] Hkey]%elem_of_dict_keys H1. simpl in *.
  rewrite Hkey. case_decide; [|by apply index_checked_Ok].
  apply (index_checked_bind _ _ _ _ (index_checked_getitem s1 idx)).
  intros sq _. apply (index_checked_bind (λ s', length s' = length st.1)).
  - destruct (updateConstraints_checked (<[idx := Square key ∅]> s1) idx key)
      as [->|(s2 & -> & H2)]; [by left|].
    apply index_checked_Ok. by rewrite H2, length_insert.
  - intros s2 H2. by apply index_checked_Ok.
Qed.

Lemma hidden_singles_raises st :
  length st.1 < 81 → hidden_singles st = Raise IndexError.
Proof.
  intros Hlen. unfold hidden_singles.
  assert (for_ (range 0 9) (λ st i, hidden_singles_group (getBox i) st) st
          = Raise IndexError) as Hinner.
  { apply (for__raises (λ r : list square * list event,
             length r.1 = length st.1) _ _ _ 8); [done| | |].
    - intros r i _ Hr. rewrite <-Hr. apply hidden_singles_group_checked.
    - apply elem_of_seq. simpl. lia.
    - intros r Hr. unfold hidden_singles_group.
      rewrite (count_options_raises r.1 (getBox 8) 80); [done| |lia].
      apply (bool_decide_unpack _). by vm_compute. }
  cbn [for_]. by rewrite Hinner.
Qed.

Lemma propagate_raises s :
  length s < 81 → propagate s = Raise IndexError.
Proof.
  intros Hlen. unfold propagate, propagate_log. simpl.
  destruct (naked_singles_checked s []) as [->|([[s1 ch] l1] & -> & H1)];
    [done|]. simpl in *.
  destruct (prune_checked s1) as [->|(s2 & -> & H2)]; [done|]. simpl.
  rewrite (hidden_singles_raises (s2, l1)); [done|]. simpl. lia.
Qed.

Lemma prune_raises s :
  81 < length s → prune s = Raise IndexError.
Proof.
  intros Hlen. destruct (lookup_lt_is_Some_2 s 81) as [sq Hsq]; [lia|].
  assert (81 ∈ range 0 (length s)) as Hin by (apply elem_of_seq; lia).
  unfold prune. destruct (decide (val sq = 0%Z)) as [H0|Hne].
  - destruct (prune_collect_checked s)
      as [->|([[rows cols] boxes] & -> & Hr & _)]; [done|]. simpl in *.
    apply (for__raises (λ s', length s' = length s
                              ∧ ∃ sq', s' !! 81 = Some sq' ∧ val sq' = 0%Z)
             _ _ _ 81); [eauto| |done|].
    + intros s1 i _ (H1 & sq1 & Hsq1 & Hv1).
      apply (index_checked_bind _ _ _ _ (index_checked_getitem s1 i)).
      intros sqi Hsqi. case_decide as Hvi; [|apply index_checked_Ok; eauto].
      apply (index_checked_bind _ _ _ _ (index_checked_getitem rows _)).
      intros r _.
      apply (index_checked_bind _ _ _ _ (index_checked_getitem cols _)).
      intros c _.
      apply (index_checked_bind _ _ _ _ (index_checked_getitem boxes _)).
      intros b _. apply index_checked_Ok.
      split; [by rewrite length_insert|].
      destruct (decide (i = 81)) as [->|Hi].
      * rewrite list_lookup_insert_eq by (by eapply lookup_lt_Some). eauto.
      * rewrite list_lookup_insert_ne by done. eauto.
    + intros s1 (H1 & sq1 & Hsq1 & Hv1).
      rewrite (getitem_Some _ _ _ Hsq1). simpl. rewrite decide_True by done.
      assert (getitem rows (toRow 81) = Raise IndexError) as ->; [|done].
      unfold getitem. rewrite lookup_ge_None_2; [done|].
      rewrite Hr. by vm_compute.
  - unfold prune_collect.
    rewrite (for__raises
      (λ st : list (gset Z) * list (gset Z) * list (gset Z),
         length st.1.1 = 9) _ _ _ 81); [done..| |done|].
    + intros [[rows cols] boxes] i _ Hr. simpl in *.
      apply (index_checked_bind _ _ _ _ (index_checked_getitem s i)).
      intros sqi _. case_decide; [|by apply index_checked_Ok].
      apply (index_checked_bind _ _ _ _ (index_checked_getitem rows _)).
      intros r _.
      apply (index_checked_bind _ _ _ _ (index_checked_getitem cols _)).
      intros c _.
      apply (index_checked_bind _ _ _ _ (index_checked_getitem boxes _)).
      intros b _. apply index_checked_Ok. simpl. by rewrite length_insert.
    + intros [[rows cols] boxes] Hr. simpl in *.
      rewrite (getitem_Some _ _ _ Hsq). simpl. rewrite decide_True by done.
      assert (getitem rows (toRow 81) = Raise IndexError) as ->; [|done].
      unfold getitem. rewrite lookup_ge_None_2; [done|].
      rewrite Hr. by vm_compute.
Qed.

(** X14. A grid that has not 81 squares is not solved: [solve] raises
    [IndexError] on it, whatever it holds. *)
Theorem solve_wrong_length_raises (grid : list Z) :
  length grid ≠ 81 → solve grid = Raise IndexError.
Proof.
  intros Hlen. unfold solve. simpl.
  assert (length (mkGrid grid) = length grid) as Hmk
    by (unfold mkGrid; by rewrite length_fmap).
  destruct (decide (81 < length grid)) as [Hlong|Hshort].
  { rewrite prune_raises; [done|lia]. }
  destruct (prune_checked (mkGrid grid)) as [->|(s1 & -> & H1)]; [done|].
  simpl. unfold reprGrid.
  destruct (index_checked_getitem s1 0) as [->|(sq & -> & _)]; [done|].
  simpl. rewrite propagate_raises; [done|lia].
Qed.

Lemma solve_wrong_length_raises_witness :
  length (take 80 puzzle1) ≠ 81 ∧ solve (take 80 puzzle1) = Raise IndexError.
Proof.
  assert (length (take 80 puzzle1) ≠ 81) as H1 by (by vm_compute).
  split; [exact H1|]. exact (solve_wrong_length_raises (take 80 puzzle1) H1).
Defined.
